(** * Fetch negotiation of libgit2 (src/fetch.c): want filtering and the
      want/have exchange, embedded as functions that return the sequence of
      calls made to the collaborators together with the C return value. *)

From Stdlib Require Import ZArith List String Bool Lia PeanoNat Sorted.
Import ListNotations.
Local Open Scope Z_scope.

(** ** Constants of the public headers

    [fetch.c] only names the error codes and the [GIT_WHN_WANT] enumerator;
    their values live in headers that are not part of the sources at hand.
    They are taken as parameters; the facts about them that a result relies
    on appear as hypotheses of that result. *)
Class git_consts : Type := {
  GIT_SUCCESS : Z;
  GIT_ERROR : Z;
  GIT_ENOTFOUND : Z;
  GIT_EREVWALKOVER : Z;
  GIT_ENOMATCH : Z;
  GIT_WHN_WANT : Z
}.

(** The values libgit2 gives them (git2/errors.h, git2/net.h); used for the
    concrete runs at the end of the file. *)
Definition libgit2 : git_consts := {|
  GIT_SUCCESS := 0;
  GIT_ERROR := -1;
  GIT_ENOTFOUND := -3;
  GIT_EREVWALKOVER := -20;
  GIT_ENOMATCH := -31;
  GIT_WHN_WANT := 2
|}.

(** ** Data *)

(** Modelled from the spec: an object identifier ([git_oid], 20 raw bytes)
    is read as the big-endian number they spell. *)
Definition git_oid := N.

(** Modelled from the spec: [git_oid_cmp] is absent from the sources; it
    compares two identifiers and returns 0 exactly when they are equal. *)
Definition git_oid_cmp (a b : git_oid) : Z :=
  match N.compare a b with
  | Eq => 0
  | Lt => -1
  | Gt => 1
  end.

(** [git_remote_head]: the fields [filter_wants] and [whn_cmp] touch. The
    declaration is in a header outside the sources; [type] is the
    classification, an enumeration read as an [int]. *)
Record git_remote_head := mk_head {
  h_type : Z;
  h_local : bool;
  h_oid : git_oid;
  h_loid : git_oid;
  h_name : string
}.

(** A [git_remote_head *]: the heads of an advertisement are owned by the
    transport, and a pointer to one of them is its position there. *)
Definition head_ptr := nat.

(** [git_headarray]: a length and an array of head pointers. *)
Record git_headarray := mk_headarray {
  len : nat;
  heads : list head_ptr
}.

Record git_reference := mk_reference {
  ref_oid : git_oid
}.

(** Modelled from the spec: what the RefStore answers for a name, a
    reference or a failure code (not found, storage error, ...). *)
Inductive lookup_result :=
  | RefFound (r : git_reference)
  | RefFailed (e : Z).

(** Modelled from the spec: the RefspecMatcher, a black box giving the
    return code of [git_refspec_src_match] for a name and, for a buffer size
    and a name, the return code of [git_refspec_transform] and the local
    name it writes. *)
Record git_refspec := mk_refspec {
  rs_src_match : string -> Z;
  rs_transform : nat -> string -> Z * string
}.

(** Modelled from the spec: the Transport. It owns the advertised heads;
    every operation reports a code. *)
Record git_transport := mk_transport {
  t_heads : list git_remote_head;
  t_ls : Z;
  t_send_wants : list head_ptr -> Z;
  t_send_have : git_oid -> Z;
  t_send_flush : Z;
  t_send_done : Z
}.

(** Modelled from the spec: the repository as seen from here, that is the
    RefStore (lookup, enumeration) and the RevisionWalker bound to it.
    [repo_revwalk seeds] is the walk from [seeds]: the identifiers of the
    calls of [git_revwalk_next] that return [GIT_SUCCESS], in order, and the
    code of the first call that does not. *)
Record git_repository := mk_repository {
  repo_lookup : string -> lookup_result;
  repo_listall : Z * list string;
  repo_revwalk_new : Z;
  repo_revwalk_push : git_oid -> Z;
  repo_revwalk : list git_oid -> list git_oid * Z
}.

(** [git_remote]: the fields [fetch.c] reads and writes. *)
Record git_remote := mk_remote {
  transport : git_transport;
  repo : git_repository;
  fetch : option git_refspec;
  refs : git_headarray
}.

(** Modelled from the spec: the allocator behind [git_vector]: the code of
    [git_vector_init] and the code of an insertion into a vector that
    already holds [n] entries. *)
Record allocator := mk_allocator {
  vector_init_code : Z;
  vector_insert_code : nat -> Z
}.

(** [git_vector] of head pointers. *)
Definition git_vector := list head_ptr.

(** A revision walker: the identifiers pushed so far, in push order. *)
Record git_revwalk := mk_revwalk {
  walk_seeds : list git_oid
}.

(** ** Calls observed from outside, each with the code it returned *)
Inductive event :=
  | EvTransportLs (code : Z)
  | EvSrcMatch (name : string) (code : Z)
  | EvTransform (name : string) (code : Z)
  | EvLookup (name : string) (code : Z)
  | EvVectorInsert (p : head_ptr) (code : Z)
  | EvVectorFree
  | EvSendWants (wants : list head_ptr) (code : Z)
  | EvListall (code : Z)
  | EvRevwalkNew (code : Z)
  | EvRevwalkPush (o : git_oid) (code : Z)
  | EvStrarrayFree
  | EvRevwalkNext (code : Z)
  | EvSendHave (o : git_oid) (code : Z)
  | EvSendFlush (code : Z)
  | EvSendDone (code : Z)
  | EvRevwalkFree.

Definition trace := list event.

(** What a call of [git_fetch_negotiate] ends in: a return value, or no
    defined behaviour (a null reference or a walker that does not exist is
    used). *)
Inductive outcome :=
  | Ret (code : Z)
  | Undefined.

(** How the per-head loop of [filter_wants] is left. *)
Inductive loop_exit :=
  | Cleanup (error : Z)
  | Completed (v : git_vector).

(** How the seeding loop of [git_fetch_negotiate] is left. *)
Inductive seed_exit :=
  | SeedCleanup (error : Z)
  | SeedUndefined
  | Seeded (walk : option git_revwalk).

Definition is_transport_call (e : event) : bool :=
  match e with
  | EvTransportLs _ | EvSendWants _ _ | EvSendHave _ _
  | EvSendFlush _ | EvSendDone _ => true
  | _ => false
  end.

Definition is_send_call (e : event) : bool :=
  match e with
  | EvSendWants _ _ | EvSendHave _ _ | EvSendFlush _ | EvSendDone _ => true
  | _ => false
  end.

Definition is_walker_call (e : event) : bool :=
  match e with
  | EvRevwalkNew _ | EvRevwalkPush _ _ | EvRevwalkNext _ | EvRevwalkFree => true
  | _ => false
  end.

Definition is_head_call (e : event) : bool :=
  match e with
  | EvSrcMatch _ _ | EvTransform _ _ | EvLookup _ _ | EvVectorInsert _ _ => true
  | _ => false
  end.

(** A call [filter_wants] makes besides the listing. *)
Definition is_local_call (e : event) : bool :=
  is_head_call e || match e with EvVectorFree => true | _ => false end.

(** A call of the seeding loop. *)
Definition is_seed_call (e : event) : bool :=
  match e with
  | EvLookup _ _ | EvRevwalkPush _ _ => true
  | _ => false
  end.

Definition is_revwalk_free (e : event) : bool :=
  match e with
  | EvRevwalkFree => true
  | _ => false
  end.

Definition is_revwalk_new (e : event) : bool :=
  match e with
  | EvRevwalkNew _ => true
  | _ => false
  end.

(** The code a transport call reported, if [e] is a send. *)
Definition send_code (e : event) : option Z :=
  match e with
  | EvSendWants _ c | EvSendHave _ c | EvSendFlush c | EvSendDone c => Some c
  | _ => None
  end.

(** The identifier of a have, if [e] is one. *)
Definition have_oid (e : event) : option git_oid :=
  match e with
  | EvSendHave o _ => Some o
  | _ => None
  end.

Fixpoint haves_of (tr : trace) : list git_oid :=
  match tr with
  | [] => []
  | e :: tr' =>
      match have_oid e with
      | Some o => o :: haves_of tr'
      | None => haves_of tr'
      end
  end.

(** [wrap_int x]: the value of [x] as a 32-bit two's complement [int]. *)
Definition wrap_int (x : Z) : Z := (x + 2 ^ 31) mod 2 ^ 32 - 2 ^ 31.

Definition null_head : git_remote_head := mk_head 0 false 0%N 0%N EmptyString.

(** [*p] for a head pointer into the transport's heads. *)
Definition deref (hs : list git_remote_head) (p : head_ptr)
    : git_remote_head :=
  nth p hs null_head.

Definition set_type (h : git_remote_head) (t : Z) : git_remote_head :=
  mk_head t (h_local h) (h_oid h) (h_loid h) (h_name h).

Definition set_local (h : git_remote_head) (l : git_oid) : git_remote_head :=
  mk_head (h_type h) true (h_oid h) l (h_name h).

Definition set_heads (t : git_transport) (hs : list git_remote_head)
    : git_transport :=
  mk_transport hs (t_ls t) (t_send_wants t) (t_send_have t)
               (t_send_flush t) (t_send_done t).

Definition set_transport (r : git_remote) (t : git_transport) : git_remote :=
  mk_remote t (repo r) (fetch r) (refs r).

Definition set_refs (r : git_remote) (a : git_headarray) : git_remote :=
  mk_remote (transport r) (repo r) (fetch r) a.

(** ** The functions of fetch.c *)

(** [whn_cmp]: [headb->type - heada->type], an [int]. *)
Definition whn_cmp (heada headb : git_remote_head) : Z :=
  wrap_int (h_type headb - h_type heada).

(** The comparison [filter_wants] gives its vector, on the entries of the
    vector: pointers into the heads [hs]. *)
Definition ptr_cmp (hs : list git_remote_head) (a b : head_ptr) : Z :=
  whn_cmp (deref hs a) (deref hs b).

(** The classification of the head [p] points to. *)
Definition ptr_type (hs : list git_remote_head) (p : head_ptr) : Z :=
  h_type (deref hs p).

(** The classifications in [v] are far from the limits of [int]. *)
Definition small_types (hs : list git_remote_head) (v : git_vector) : Prop :=
  forall p, In p v -> - 2 ^ 30 <= ptr_type hs p < 2 ^ 30.

(** Modelled from the spec: [git_vector_sort] is absent from the sources;
    the spec makes it a stable sort under the vector's comparison. Stable
    insertion: an entry goes in front of the first one it does not follow. *)
Fixpoint vector_insert_sorted (cmp : head_ptr -> head_ptr -> Z)
    (p : head_ptr) (v : git_vector) : git_vector :=
  match v with
  | [] => [p]
  | q :: v' =>
      if cmp p q <=? 0 then p :: q :: v'
      else q :: vector_insert_sorted cmp p v'
  end.

Fixpoint git_vector_sort (cmp : head_ptr -> head_ptr -> Z) (v : git_vector)
    : git_vector :=
  match v with
  | [] => []
  | p :: v' => vector_insert_sorted cmp p (git_vector_sort cmp v')
  end.

Section Fetch.

Context {K : git_consts}.

(** Modelled from the spec: [git__throw] and [git__rethrow] record a message
    and hand the code back. *)
Definition git__throw (error : Z) (msg : string) : Z := error.
Definition git__rethrow (error : Z) (msg : string) : Z := error.

(** Modelled from the spec: lookup answers [GIT_SUCCESS] and a reference,
    or a failure code and a null reference. *)
Definition git_reference_lookup (repo : git_repository) (name : string)
    : Z * option git_reference :=
  match repo_lookup repo name with
  | RefFound r => (GIT_SUCCESS, Some r)
  | RefFailed e => (e, None)
  end.

(** Modelled from the spec: [git_reference_oid], the target of a local
    reference. *)
Definition git_reference_oid (r : git_reference) : git_oid := ref_oid r.

(** Modelled from the spec: [git_refspec_src_match] and
    [git_refspec_transform], the two operations of the RefspecMatcher; the
    buffer [local] of the C code is the string returned. *)
Definition git_refspec_src_match (spec : git_refspec) (name : string) : Z :=
  rs_src_match spec name.

Definition git_refspec_transform (outlen : nat) (spec : git_refspec)
    (name : string) : Z * string :=
  rs_transform spec outlen name.

(** Modelled from the spec: [git_remote_fetchspec], the active fetch
    refspec of the remote, or [NULL]. *)
Definition git_remote_fetchspec (remote : git_remote) : option git_refspec :=
  fetch remote.

(** Modelled from the spec: an insertion appends when the allocator lets it. *)
Definition git_vector_insert (mem : allocator) (v : git_vector)
    (p : head_ptr) : Z * git_vector :=
  let error := vector_insert_code mem (List.length v) in
  if error <? GIT_SUCCESS then (error, v) else (error, v ++ [p]).

(** The body of [for (i = 0; i < refs.len; ++i)] in [filter_wants] (lines
    74-119), on the heads from [refs.heads[i]] on. Returns the calls made,
    how the loop is left, and the heads as the loop leaves them. *)
Fixpoint filter_loop (spec : git_refspec) (repo : git_repository)
    (mem : allocator) (i : nat) (hs : list git_remote_head) (v : git_vector)
    : trace * loop_exit * list git_remote_head :=
  match hs with
  | [] => ([], Completed v, [])
  | head :: rest =>
      let skip (evs : trace) (head' : git_remote_head) :=
        let '(tr, ex, rest') := filter_loop spec repo mem (S i) rest v in
        (evs ++ tr, ex, head' :: rest') in
      let name := h_name head in
      let error := git_refspec_src_match spec name in
      let ev1 := [EvSrcMatch name error] in
      if error =? GIT_ENOMATCH then skip ev1 head
      else if error <? GIT_SUCCESS then
        (ev1, Cleanup (git__rethrow error "Error matching remote ref name"),
         head :: rest)
      else
        let '(error, local) := git_refspec_transform 1024 spec name in
        let ev2 := ev1 ++ [EvTransform name error] in
        if error <? GIT_SUCCESS then
          (ev2, Cleanup (git__rethrow error "Error transforming ref name"),
           head :: rest)
        else
          let '(error, ref) := git_reference_lookup repo local in
          let ev3 := ev2 ++ [EvLookup local error] in
          if (error <? GIT_SUCCESS) && negb (error =? GIT_ENOTFOUND) then
            (ev3, Cleanup (git__rethrow error "Error looking up local ref"),
             head :: rest)
          else
            let want (head : git_remote_head) :=
              let head := set_type head GIT_WHN_WANT in
              let '(error, v') := git_vector_insert mem v i in
              let ev4 := ev3 ++ [EvVectorInsert i error] in
              if error <? GIT_SUCCESS then (ev4, Cleanup error, head :: rest)
              else
                let '(tr, ex, rest') :=
                  filter_loop spec repo mem (S i) rest v' in
                (ev4 ++ tr, ex, head :: rest') in
            match ref with
            | Some r =>
                if git_oid_cmp (h_oid head) (git_reference_oid r) =? 0
                then skip ev3 head
                else want (set_local head (git_reference_oid r))
            | None => want head
            end
  end.

(** [filter_wants] (lines 48-130). Returns the calls made, the return value
    and the remote as the call leaves it. *)
Definition filter_wants (mem : allocator) (remote : git_remote)
    : trace * Z * git_remote :=
  let t := transport remote in
  let repo := repo remote in
  let error := vector_init_code mem in
  if error <? GIT_SUCCESS then ([], error, remote)
  else
    let error := t_ls t in
    let ev1 := [EvTransportLs error] in
    if error <? GIT_SUCCESS then
      (ev1 ++ [EvVectorFree],
       git__rethrow error "Failed to list local refs", remote)
    else
      match git_remote_fetchspec remote with
      | None =>
          (ev1 ++ [EvVectorFree],
           git__throw GIT_ERROR "The remote has to fetchspec", remote)
      | Some spec =>
          let '(tr, ex, hs') := filter_loop spec repo mem 0 (t_heads t) [] in
          let remote := set_transport remote (set_heads t hs') in
          match ex with
          | Cleanup error => (ev1 ++ tr ++ [EvVectorFree], error, remote)
          | Completed v =>
              let v := git_vector_sort (ptr_cmp hs') v in
              (ev1 ++ tr, GIT_SUCCESS,
               set_refs remote (mk_headarray (List.length v) v))
          end
      end.

(** Modelled from the spec: enumeration of the local reference names. The
    array is only there when the call does not fail. *)
Definition git_reference_listall (repo : git_repository)
    : Z * option (list string) :=
  let '(error, names) := repo_listall repo in
  if error <? GIT_SUCCESS then (error, None) else (error, Some names).

(** Modelled from the spec: a walker exists once [git_revwalk_new] does not
    fail; it starts with no seed. *)
Definition git_revwalk_new (repo : git_repository) : Z * option git_revwalk :=
  let error := repo_revwalk_new repo in
  if error <? GIT_SUCCESS then (error, None) else (error, Some (mk_revwalk [])).

(** Modelled from the spec: a push that does not fail adds a seed. *)
Definition git_revwalk_push (repo : git_repository) (walk : git_revwalk)
    (o : git_oid) : Z * git_revwalk :=
  let error := repo_revwalk_push repo o in
  if error <? GIT_SUCCESS then (error, walk)
  else (error, mk_revwalk (walk_seeds walk ++ [o])).

(** The seeding loop of [git_fetch_negotiate] (lines 172-184) on the names
    from [refs.strings[i]] on. *)
Fixpoint seed_loop (repo : git_repository) (names : list string)
    (walk : option git_revwalk) : trace * seed_exit :=
  match names with
  | [] => ([], Seeded walk)
  | name :: rest =>
      let '(error, ref) := git_reference_lookup repo name in
      let ev1 := [EvLookup name error] in
      if error <? GIT_ERROR then
        (ev1, SeedCleanup (git__rethrow error "Failed to lookup"))
      else
        match ref, walk with
        | Some r, Some w =>
            let '(error, w') := git_revwalk_push repo w (git_reference_oid r) in
            let ev2 := ev1 ++ [EvRevwalkPush (git_reference_oid r) error] in
            if error <? GIT_ERROR then
              (ev2, SeedCleanup (git__rethrow error "Failed to push"))
            else
              let '(tr, ex) := seed_loop repo rest (Some w') in
              (ev2 ++ tr, ex)
        | _, _ => (ev1, SeedUndefined)
        end
  end.

(** The loop [while ((error = git_revwalk_next(&oid, walk)) == GIT_SUCCESS)]
    (lines 187-189) over what is left of the walk; returns the calls made and
    the value [error] leaves the loop with. *)
Fixpoint have_loop (t : git_transport) (pending : list git_oid) (last : Z)
    : trace * Z :=
  match pending with
  | [] => ([EvRevwalkNext last], last)
  | oid :: rest =>
      let '(tr, error) := have_loop t rest last in
      (EvRevwalkNext GIT_SUCCESS :: EvSendHave oid (t_send_have t oid) :: tr,
       error)
  end.

(** [git_fetch_negotiate] (lines 137-200). The values the transport calls
    return are dropped by the C code; they only show in the trace. In the
    cleanup after a failed [git_revwalk_new] the call of [git_revwalk_free]
    is recorded like any other. *)
Definition git_fetch_negotiate (mem : allocator) (remote : git_remote)
    : trace * outcome * git_remote :=
  let '(tr0, error, remote) := filter_wants mem remote in
  if error <? GIT_SUCCESS then
    (tr0,
     Ret (git__rethrow error "Failed to filter the reference list for wants"),
     remote)
  else
    let list := refs remote in
    let repo := repo remote in
    let t := transport remote in
    if (len list =? 0)%nat then (tr0, Ret GIT_SUCCESS, remote)
    else
      let ev1 :=
        tr0 ++ [EvSendWants (heads list) (t_send_wants t (heads list))] in
      let '(error, names) := git_reference_listall repo in
      let ev2 := ev1 ++ [EvListall error] in
      if error <? GIT_ERROR then
        (ev2, Ret (git__rethrow error "Failed to list all references"), remote)
      else
        let '(error, walk) := git_revwalk_new repo in
        let ev3 := ev2 ++ [EvRevwalkNew error] in
        if error <? GIT_ERROR then
          (ev3 ++ [EvRevwalkFree],
           Ret (git__rethrow error "Failed to list all references"), remote)
        else
          match names with
          | None => (ev3, Undefined, remote)
          | Some names =>
              let '(tr1, ex) := seed_loop repo names walk in
              match ex with
              | SeedCleanup error =>
                  (ev3 ++ tr1 ++ [EvRevwalkFree], Ret error, remote)
              | SeedUndefined => (ev3 ++ tr1, Undefined, remote)
              | Seeded None =>
                  (ev3 ++ tr1 ++ [EvStrarrayFree], Undefined, remote)
              | Seeded (Some w) =>
                  let '(pending, last) := repo_revwalk repo (walk_seeds w) in
                  let '(tr2, error) := have_loop t pending last in
                  let error :=
                    if error =? GIT_EREVWALKOVER then GIT_SUCCESS else error in
                  (ev3 ++ tr1 ++ [EvStrarrayFree] ++ tr2
                     ++ [EvSendFlush (t_send_flush t);
                         EvSendDone (t_send_done t);
                         EvRevwalkFree],
                   Ret error, remote)
              end
          end.

End Fetch.

(** ** What the want filter computes *)

Section WantFilter.

Context {K : git_consts}.
Variables (spec : git_refspec) (repo : git_repository).

(** The local name a remote name is transformed into. *)
Definition local_name (name : string) : string :=
  snd (git_refspec_transform 1024 spec name).

(** The name passes the source pattern: the match is neither a mismatch nor
    a failure. *)
Definition src_matches (name : string) : Prop :=
  git_refspec_src_match spec name <> GIT_ENOMATCH /\
  GIT_SUCCESS <= git_refspec_src_match spec name.

(** A local reference under the transformed name points at the head's
    remote identifier. *)
Definition up_to_date (head : git_remote_head) : Prop :=
  exists r, repo_lookup repo (local_name (h_name head)) = RefFound r /\
            ref_oid r = h_oid head.

(** The decision the loop body takes for a head it does not fail on. *)
Definition wanted (head : git_remote_head) : bool :=
  negb (git_refspec_src_match spec (h_name head) =? GIT_ENOMATCH) &&
  match snd (git_reference_lookup repo (local_name (h_name head))) with
  | Some r => negb (git_oid_cmp (h_oid head) (git_reference_oid r) =? 0)
  | None => true
  end.

(** The head as the loop body leaves it. *)
Definition classify (head : git_remote_head) : git_remote_head :=
  if wanted head then
    match snd (git_reference_lookup repo (local_name (h_name head))) with
    | Some r => set_type (set_local head (git_reference_oid r)) GIT_WHN_WANT
    | None => set_type head GIT_WHN_WANT
    end
  else head.

(** Pointers to the wanted heads among [hs], the first of which is at [i]. *)
Fixpoint want_ptrs (i : nat) (hs : list git_remote_head) : list head_ptr :=
  match hs with
  | [] => []
  | head :: rest =>
      if wanted head then i :: want_ptrs (S i) rest else want_ptrs (S i) rest
  end.

End WantFilter.

(** ** What is observed of a negotiation *)

Definition trace_of {A B : Type} (x : trace * A * B) : trace := fst (fst x).
Definition result_of {A B : Type} (x : trace * A * B) : A := snd (fst x).
Definition remote_of {A B : Type} (x : trace * A * B) : B := snd x.

(** Number of [git_revwalk_free] calls. *)
Definition releases (tr : trace) : nat :=
  List.length (filter is_revwalk_free tr).

(** The identifiers of the pushes that did not fail, in order. *)
Fixpoint pushed_of {K : git_consts} (tr : trace) : list git_oid :=
  match tr with
  | [] => []
  | EvRevwalkPush o c :: tr' =>
      if c <? GIT_SUCCESS then pushed_of tr' else o :: pushed_of tr'
  | _ :: tr' => pushed_of tr'
  end.

(** A send with its code blanked. *)
Definition erase_send_code (e : event) : event :=
  match e with
  | EvSendWants wants _ => EvSendWants wants 0
  | EvSendHave o _ => EvSendHave o 0
  | EvSendFlush _ => EvSendFlush 0
  | EvSendDone _ => EvSendDone 0
  | _ => e
  end.

(** The transport with sends that report nothing but 0. *)
Definition quiet (t : git_transport) : git_transport :=
  mk_transport (t_heads t) (t_ls t) (fun _ => 0) (fun _ => 0) 0 0.

(** The remote with its transport silenced. *)
Definition quiet_remote (r : git_remote) : git_remote :=
  set_transport r (quiet (transport r)).

Section Observations.

Context {K : git_consts}.

(** The tips a walker gets from the references [names]: the target of
    each, in order, unless its push fails. *)
Definition tips_of (repo : git_repository) (names : list string)
    : list git_oid :=
  flat_map
    (fun name =>
       match repo_lookup repo name with
       | RefFound r =>
           if repo_revwalk_push repo (ref_oid r) <? GIT_SUCCESS then []
           else [ref_oid r]
       | RefFailed _ => []
       end)
    names.

(** The tips of all the enumerated local references. *)
Definition local_tips (repo : git_repository) : list git_oid :=
  tips_of repo (snd (repo_listall repo)).

(** The walker's traversal order from the local tips. *)
Definition walk_order (repo : git_repository) : list git_oid :=
  fst (repo_revwalk repo (local_tips repo)).

(** [git_revwalk_new] was called. *)
Definition walker_requested (tr : trace) : Prop :=
  exists c, In (EvRevwalkNew c) tr.

(** [git_revwalk_new] was called and did not fail. *)
Definition walker_created (tr : trace) : Prop :=
  exists c, In (EvRevwalkNew c) tr /\ GIT_SUCCESS <= c.

(** Some send reported a failure. *)
Definition send_failed (tr : trace) : Prop :=
  exists e c, In e tr /\ send_code e = Some c /\ c < GIT_SUCCESS.

(** The call returned an error. *)
Definition is_failure (o : outcome) : Prop :=
  exists c, o = Ret c /\ c < GIT_SUCCESS.

(** Two remotes that differ at most in what their sends report. *)
Definition same_but_sends (r1 r2 : git_remote) : Prop :=
  t_heads (transport r1) = t_heads (transport r2) /\
  t_ls (transport r1) = t_ls (transport r2) /\
  repo r1 = repo r2 /\ fetch r1 = fetch r2 /\ refs r1 = refs r2.

(** *** Three claims the way the specification words them *)

(** Any failure a send reports makes [git_fetch_negotiate] return an error. *)
Definition send_failure_fatal (mem : allocator) (remote : git_remote) : Prop :=
  send_failed (trace_of (git_fetch_negotiate mem remote)) ->
  is_failure (result_of (git_fetch_negotiate mem remote)).

(** Without a fetch refspec [filter_wants] fails with the configuration
    error before the advertisement is listed or any head is processed. *)
Definition fetchspec_checked_first (mem : allocator) (remote : git_remote)
    : Prop :=
  fetch remote = None ->
  result_of (filter_wants mem remote) = GIT_ERROR /\
  filter is_transport_call (trace_of (filter_wants mem remote)) = [] /\
  filter is_head_call (trace_of (filter_wants mem remote)) = [].

(** Once the want filter has succeeded, every return of
    [git_fetch_negotiate] comes after exactly one release of the walker. *)
Definition released_once (mem : allocator) (remote : git_remote) : Prop :=
  (result_of (filter_wants mem remote) <? GIT_SUCCESS) = false ->
  forall c, result_of (git_fetch_negotiate mem remote) = Ret c ->
  releases (trace_of (git_fetch_negotiate mem remote)) = 1%nat.

End Observations.

(** ** Further observations on traces and heads *)

(** The code a call reported; the three frees report none. *)
Definition event_code (e : event) : option Z :=
  match e with
  | EvTransportLs c | EvSrcMatch _ c | EvTransform _ c | EvLookup _ c
  | EvVectorInsert _ c | EvSendWants _ c | EvListall c | EvRevwalkNew c
  | EvRevwalkPush _ c | EvRevwalkNext c | EvSendHave _ c | EvSendFlush c
  | EvSendDone c => Some c
  | EvVectorFree | EvStrarrayFree | EvRevwalkFree => None
  end.

Definition is_send_wants (e : event) : bool :=
  match e with
  | EvSendWants _ _ => true
  | _ => false
  end.

Definition is_strarray_free (e : event) : bool :=
  match e with
  | EvStrarrayFree => true
  | _ => false
  end.

Definition is_revwalk_next (e : event) : bool :=
  match e with
  | EvRevwalkNext _ => true
  | _ => false
  end.


(** What [filter_wants] keeps of a head whatever it does to it: the name,
    the remote identifier, and a [local] flag that was set. *)
Definition same_ref (head head' : git_remote_head) : Prop :=
  h_name head' = h_name head /\ h_oid head' = h_oid head /\
  (h_local head = true -> h_local head' = true).

(** The classifications of two heads are far from the limits of [int]. *)
Definition small_type (head : git_remote_head) : Prop :=
  - 2 ^ 30 <= h_type head < 2 ^ 30.

(** The names looked up in the reference store, in order. *)
Fixpoint lookups_of (tr : trace) : list string :=
  match tr with
  | [] => []
  | EvLookup name _ :: tr' => name :: lookups_of tr'
  | _ :: tr' => lookups_of tr'
  end.

Section MatchingHeads.

Context {K : git_consts}.

(** The heads whose name is not a mismatch for the source pattern. *)
Definition matching (spec : git_refspec) (hs : list git_remote_head)
    : list git_remote_head :=
  filter (fun head =>
            negb (git_refspec_src_match spec (h_name head) =? GIT_ENOMATCH))
         hs.

End MatchingHeads.

(** ** Concrete inputs, with libgit2's constants *)

Module Example.

(** The refspec [refs/heads/*:refs/remotes/origin/*]. *)
Definition origin : git_refspec :=
  mk_refspec
    (fun name => if String.prefix "refs/heads/" name then 0 else -31)
    (fun outlen name =>
       let l := String.append "refs/remotes/origin/"
                  (String.substring 11 (String.length name - 11) name) in
       if (outlen <=? String.length l)%nat then (-32, EmptyString) else (0, l)).

Definition adv : list git_remote_head :=
  [ mk_head 0 false 2%N 0%N "HEAD";
    mk_head 0 false 2%N 0%N "refs/heads/main";
    mk_head 0 false 3%N 0%N "refs/heads/dev";
    mk_head 0 false 4%N 0%N "refs/heads/new";
    mk_head 0 false 5%N 0%N "refs/tags/v1" ].

(** An advertisement whose only matching head is up to date. *)
Definition adv_same : list git_remote_head :=
  [ mk_head 0 false 3%N 0%N "refs/heads/dev";
    mk_head 0 false 5%N 0%N "refs/tags/v1" ].

Definition store (name : string) : lookup_result :=
  if String.eqb name "refs/remotes/origin/main" then RefFound (mk_reference 1%N)
  else if String.eqb name "refs/remotes/origin/dev" then
    RefFound (mk_reference 3%N)
  else if String.eqb name "refs/heads/main" then RefFound (mk_reference 1%N)
  else RefFailed (-3).

Definition local_names : list string :=
  [ "refs/heads/main"; "refs/remotes/origin/main";
    "refs/remotes/origin/dev" ]%string.

(** A walk that yields its seeds, last pushed first, then is over. *)
Definition walk (seeds : list git_oid) : list git_oid * Z := (rev seeds, -20).

Definition rp : git_repository :=
  mk_repository store (0, local_names) 0 (fun _ => 0) walk.

(** As [rp], but pushing the identifier 1 fails with [GIT_ERROR]. *)
Definition rp_push_fails : git_repository :=
  mk_repository store (0, local_names) 0
    (fun o => if (o =? 1)%N then -1 else 0) walk.

(** As [rp], but no walker can be allocated ([GIT_ENOMEM]). *)
Definition rp_no_walker : git_repository :=
  mk_repository store (0, local_names) (-4) (fun _ => 0) walk.

Definition tp : git_transport :=
  mk_transport adv 0 (fun _ => 0) (fun _ => 0) 0 0.

(** As [tp], but every send reports [GIT_EOSERR]. *)
Definition tp_sends_fail : git_transport :=
  mk_transport adv 0 (fun _ => -5) (fun _ => -5) (-5) (-5).

(** As [tp], but the listing fails with [GIT_EOSERR]. *)
Definition tp_ls_fails : git_transport :=
  mk_transport adv (-5) (fun _ => 0) (fun _ => 0) 0 0.

Definition tp_same : git_transport :=
  mk_transport adv_same 0 (fun _ => 0) (fun _ => 0) 0 0.

Definition mem0 : allocator := mk_allocator 0 (fun _ => 0).

(** The vector cannot grow beyond one entry ([GIT_ENOMEM]). *)
Definition mem_full : allocator :=
  mk_allocator 0 (fun n => if (n =? 1)%nat then -4 else 0).

Definition old_refs : git_headarray := mk_headarray 1 [0%nat].

Definition rem0 : git_remote := mk_remote tp rp (Some origin) old_refs.
Definition rem_same : git_remote := mk_remote tp_same rp (Some origin) old_refs.
Definition rem_nospec : git_remote := mk_remote tp rp None old_refs.
Definition rem_sends_fail : git_remote :=
  mk_remote tp_sends_fail rp (Some origin) old_refs.
Definition rem_ls_fails : git_remote :=
  mk_remote tp_ls_fails rp (Some origin) old_refs.
Definition rem_push_fails : git_remote :=
  mk_remote tp rp_push_fails (Some origin) old_refs.
Definition rem_no_walker : git_remote :=
  mk_remote tp rp_no_walker (Some origin) old_refs.

End Example.

(** ** More concrete inputs *)

Module Example2.

Import Example.

(** As [rp], but the walk breaks down with [GIT_EOSERR] after one step. *)
Definition rp_walk_breaks : git_repository :=
  mk_repository store (0, local_names) 0 (fun _ => 0)
    (fun seeds => (firstn 1 (rev seeds), -5)).

(** As [rp], but pushing the identifier 3 fails with [GIT_ENOTFOUND]. *)
Definition rp_push_rejected : git_repository :=
  mk_repository store (0, local_names) 0
    (fun o => if (o =? 3)%N then -3 else 0) walk.

(** As [rp], but the references cannot be enumerated ([GIT_EOSERR]). *)
Definition rp_no_listing : git_repository :=
  mk_repository store (-5, []) 0 (fun _ => 0) walk.


(** A refspec whose transform fails on names longer than 14 characters. *)
Definition narrow : git_refspec :=
  mk_refspec
    (fun name => if String.prefix "refs/heads/" name then 0 else -31)
    (fun outlen name =>
       if (14 <? String.length name)%nat then (-32, EmptyString)
       else (0, String.append "refs/remotes/origin/"
                  (String.substring 11 (String.length name - 11) name))).

Definition rem_walk_breaks : git_remote :=
  mk_remote tp rp_walk_breaks (Some origin) old_refs.
Definition rem_push_rejected : git_remote :=
  mk_remote tp rp_push_rejected (Some origin) old_refs.
Definition rem_no_listing : git_remote :=
  mk_remote tp rp_no_listing (Some origin) old_refs.
Definition rem_narrow : git_remote :=
  mk_remote tp rp (Some narrow) old_refs.

End Example2.

(** * Proofs *)

(** Follow the control flow of a run [H : body = result]: case analysis on
    the test at the head of [body], one test at a time. *)
Ltac head_step H :=
  lazymatch type of H with
  | (match ?x with _ => _ end) = _ => destruct x eqn:?
  end; cbn beta iota zeta in H.

Ltac run_inv H :=
  repeat head_step H; inversion H; subst; clear H.

(** Replay in the goal the outcome of the tests found in the context. *)
Ltac rew_tests :=
  repeat match goal with
  | H : ?x = (_, _) |- context [?x] => rewrite H
  | H : ?x = true |- context [?x] => rewrite H
  | H : ?x = false |- context [?x] => rewrite H
  end.

Lemma git_oid_cmp_eq (a b : git_oid) : git_oid_cmp a b = 0 <-> a = b.
Proof.
  unfold git_oid_cmp. destruct (N.compare_spec a b); split; intros; subst;
    try discriminate; try reflexivity; lia.
Qed.

Lemma wrap_int_0 : wrap_int 0 = 0.
Proof. reflexivity. Qed.

Lemma whn_cmp_same_type (a b : git_remote_head) :
  h_type a = h_type b -> whn_cmp a b = 0.
Proof. intros H. unfold whn_cmp. rewrite H, Z.sub_diag. apply wrap_int_0. Qed.

Lemma wrap_int_small (x : Z) :
  - 2 ^ 31 <= x < 2 ^ 31 -> wrap_int x = x.
Proof.
  intros H. unfold wrap_int.
  change (2 ^ 31) with 2147483648 in *. change (2 ^ 32) with 4294967296.
  rewrite Z.mod_small by lia. lia.
Qed.

Lemma nth_error_sorted {A : Type} (R : A -> A -> Prop) (l : list A) :
  StronglySorted R l ->
  forall a b x y,
    (a < b)%nat -> nth_error l a = Some x -> nth_error l b = Some y -> R x y.
Proof.
  induction 1 as [|h l Hs IH Hall]; intros a b x y Hab Ha Hb.
  - now destruct a.
  - destruct b as [|b]; [lia|]. simpl in Hb. destruct a as [|a]; simpl in Ha.
    + inversion Ha; subst. rewrite Forall_forall in Hall.
      apply Hall. eapply nth_error_In; eassumption.
    + apply (IH a b); [lia|assumption..].
Qed.

Section VectorSort.

Variable cmp : head_ptr -> head_ptr -> Z.

Lemma vector_insert_sorted_In (p x : head_ptr) (v : git_vector) :
  In x (vector_insert_sorted cmp p v) <-> x = p \/ In x v.
Proof.
  induction v as [|q v IH]; simpl.
  - intuition.
  - destruct (cmp p q <=? 0); simpl; [intuition|].
    rewrite IH. intuition.
Qed.

Lemma git_vector_sort_In (x : head_ptr) (v : git_vector) :
  In x (git_vector_sort cmp v) <-> In x v.
Proof.
  induction v as [|p v IH]; simpl; [tauto|].
  rewrite vector_insert_sorted_In, IH. intuition.
Qed.

(** A vector whose entries all compare equal is left as it is. *)
Lemma git_vector_sort_ties (v : git_vector) :
  (forall a b, In a v -> In b v -> cmp a b = 0) ->
  git_vector_sort cmp v = v.
Proof.
  induction v as [|p v IH]; intros H; simpl; [reflexivity|].
  rewrite IH by (intros; apply H; now right).
  destruct v as [|q v]; simpl; [reflexivity|].
  rewrite (H p q) by (simpl; auto). reflexivity.
Qed.

End VectorSort.

(** The sort under [whn_cmp] is by descending type and stable, whatever the
    types in the vector, as long as their differences fit an [int]. *)
Section SortByType.

Variable hs : list git_remote_head.


Lemma ptr_cmp_le (p q : head_ptr) :
  - 2 ^ 30 <= ptr_type hs p < 2 ^ 30 -> - 2 ^ 30 <= ptr_type hs q < 2 ^ 30 ->
  (ptr_cmp hs p q <=? 0) = (ptr_type hs q <=? ptr_type hs p).
Proof.
  intros Hp Hq. unfold ptr_cmp, whn_cmp. fold (ptr_type hs p) (ptr_type hs q).
  change (2 ^ 30) with 1073741824 in *.
  rewrite wrap_int_small by (change (2 ^ 31) with 2147483648; lia).
  destruct (Z.leb_spec (ptr_type hs q - ptr_type hs p) 0),
    (Z.leb_spec (ptr_type hs q) (ptr_type hs p)); lia.
Qed.

Lemma insert_descending (p : head_ptr) (v : git_vector) :
  small_types hs (p :: v) ->
  StronglySorted (fun a b => ptr_type hs b <= ptr_type hs a) v ->
  StronglySorted (fun a b => ptr_type hs b <= ptr_type hs a)
    (vector_insert_sorted (ptr_cmp hs) p v).
Proof.
  intros Hsm Hs. induction Hs as [|q v Hs IH Hall]; simpl.
  - repeat constructor.
  - rewrite ptr_cmp_le by (apply Hsm; simpl; auto).
    destruct (Z.leb_spec (ptr_type hs q) (ptr_type hs p)) as [Hle|Hgt].
    + constructor; [now constructor|]. constructor; [exact Hle|].
      eapply Forall_impl; [|exact Hall]. simpl. intros; lia.
    + constructor.
      * apply IH. intros x [<-|Hx]; apply Hsm; simpl; auto.
      * apply Forall_forall. intros x Hx.
        apply vector_insert_sorted_In in Hx. destruct Hx as [->|Hx]; [lia|].
        rewrite Forall_forall in Hall. now apply Hall.
Qed.

Lemma git_vector_sort_descending (v : git_vector) :
  small_types hs v ->
  StronglySorted (fun a b => ptr_type hs b <= ptr_type hs a)
    (git_vector_sort (ptr_cmp hs) v).
Proof.
  induction v as [|p v IH]; intros Hsm; simpl; [constructor|].
  apply insert_descending.
  - intros x [<-|Hx]; apply Hsm; simpl; auto.
    right. now apply git_vector_sort_In in Hx.
  - apply IH. intros x Hx. apply Hsm. now right.
Qed.

Lemma insert_stable (c : Z) (p : head_ptr) (v : git_vector) :
  small_types hs (p :: v) ->
  filter (fun q => ptr_type hs q =? c) (vector_insert_sorted (ptr_cmp hs) p v) =
  filter (fun q => ptr_type hs q =? c) (p :: v).
Proof.
  intros Hsm. induction v as [|q v IH]; [reflexivity|].
  cbn [vector_insert_sorted].
  rewrite ptr_cmp_le by (apply Hsm; simpl; auto).
  destruct (Z.leb_spec (ptr_type hs q) (ptr_type hs p)) as [Hle|Hgt];
    [reflexivity|].
  cbn [filter]. rewrite IH by (intros x [<-|Hx]; apply Hsm; simpl; auto).
  cbn [filter].
  destruct (Z.eqb_spec (ptr_type hs q) c), (Z.eqb_spec (ptr_type hs p) c);
    try reflexivity.
  lia.
Qed.

(** Entries of one type keep their relative order. *)
Lemma git_vector_sort_stable (c : Z) (v : git_vector) :
  small_types hs v ->
  filter (fun q => ptr_type hs q =? c) (git_vector_sort (ptr_cmp hs) v) =
  filter (fun q => ptr_type hs q =? c) v.
Proof.
  induction v as [|p v IH]; intros Hsm; [reflexivity|].
  cbn [git_vector_sort]. rewrite insert_stable.
  - cbn [filter]. rewrite IH by (intros x Hx; apply Hsm; now right).
    reflexivity.
  - intros x [<-|Hx]; apply Hsm; simpl; auto.
    right. now apply git_vector_sort_In in Hx.
Qed.

End SortByType.

(** ** The per-head loop *)

Section FilterLoop.

Context {K : git_consts}.
Variables (spec : git_refspec) (repo : git_repository) (mem : allocator).

Lemma git_vector_insert_ok (v v' : git_vector) (p : head_ptr) (e : Z) :
  git_vector_insert mem v p = (e, v') ->
  (e <? GIT_SUCCESS) = false -> v' = v ++ [p].
Proof.
  unfold git_vector_insert. intros H He.
  destruct (vector_insert_code mem (List.length v) <? GIT_SUCCESS) eqn:E;
    inversion H; subst; congruence.
Qed.

(** A loop that runs to its end has inserted the pointers to the wanted
    heads, in order, and has left every head classified. *)
Lemma filter_loop_completed (hs : list git_remote_head) :
  forall i v tr v' hs',
    filter_loop spec repo mem i hs v = (tr, Completed v', hs') ->
    v' = v ++ want_ptrs spec repo i hs /\ hs' = map (classify spec repo) hs.
Proof.
  induction hs as [|head rest IH]; intros i v tr v' hs' H; simpl in H.
  - inversion H; subst. simpl. now rewrite app_nil_r.
  - run_inv H.
    all: match goal with
         | H : filter_loop _ _ _ _ _ _ = _ |- _ =>
             apply IH in H; destruct H as [-> ->]
         end.
    all: try match goal with
         | H : git_vector_insert _ _ _ = _ |- _ =>
             apply git_vector_insert_ok in H; [subst|assumption]
         end.
    all: cbn [want_ptrs map].
    all: generalize (map (classify spec repo) rest);
         generalize (want_ptrs spec repo (S i) rest); intros ps hs0.
    all: unfold classify, wanted, local_name;
         repeat (progress (rew_tests; cbn [snd fst negb andb])).
    all: rewrite <- ?app_assoc; auto.
Qed.

(** A loop left through [cleanup] carries a failure code. *)
Lemma filter_loop_cleanup (hs : list git_remote_head) :
  forall i v tr e hs',
    filter_loop spec repo mem i hs v = (tr, Cleanup e, hs') ->
    e < GIT_SUCCESS.
Proof.
  induction hs as [|head rest IH]; intros i v tr e hs' H; simpl in H.
  - inversion H.
  - unfold git__rethrow in H. run_inv H.
    all: try match goal with
         | H : filter_loop _ _ _ _ _ _ = _ |- _ => apply IH in H; assumption
         end.
    all: try match goal with
         | H : (_ && _) = true |- _ => apply andb_prop in H; destruct H
         end.
    all: lia.
Qed.

(** When the loop runs to its end, no match has failed. *)
Lemma filter_loop_completed_matches (hs : list git_remote_head) :
  forall i v tr v' hs',
    filter_loop spec repo mem i hs v = (tr, Completed v', hs') ->
    Forall (fun head =>
              GIT_SUCCESS <= git_refspec_src_match spec (h_name head) \/
              git_refspec_src_match spec (h_name head) = GIT_ENOMATCH) hs.
Proof.
  induction hs as [|head rest IH]; intros i v tr v' hs' H; simpl in H.
  - constructor.
  - run_inv H.
    all: match goal with
         | H : filter_loop _ _ _ _ _ _ = _ |- _ => apply IH in H
         end.
    all: constructor; [lia|assumption].
Qed.

(** The per-head loop makes no transport call and no walker call. *)
Lemma filter_loop_calls (hs : list git_remote_head) :
  forall i v tr ex hs',
    filter_loop spec repo mem i hs v = (tr, ex, hs') ->
    Forall (fun e => is_head_call e = true) tr.
Proof.
  induction hs as [|head rest IH]; intros i v tr ex hs' H; simpl in H.
  - inversion H; constructor.
  - run_inv H.
    all: try match goal with
         | H : filter_loop _ _ _ _ _ _ = _ |- _ => apply IH in H
         end.
    all: repeat (apply Forall_app; split); repeat constructor; assumption.
Qed.

End FilterLoop.

(** ** The want list *)

Section WantList.

Context {K : git_consts}.
Variables (spec : git_refspec) (repo : git_repository).

Lemma want_ptrs_In (hs : list git_remote_head) :
  forall i p,
    In p (want_ptrs spec repo i hs) <->
    exists k head, p = (i + k)%nat /\ nth_error hs k = Some head /\
                   wanted spec repo head = true.
Proof.
  induction hs as [|h rest IH]; intros i p; simpl.
  - split; [tauto|]. intros (k & head & _ & Hn & _). now destruct k.
  - split.
    + intros Hin. destruct (wanted spec repo h) eqn:W.
      * destruct Hin as [<-|Hin].
        -- exists 0%nat, h. rewrite Nat.add_0_r. auto.
        -- apply IH in Hin. destruct Hin as (k & head & -> & Hn & Hw).
           exists (S k), head. split; [lia|auto].
      * apply IH in Hin. destruct Hin as (k & head & -> & Hn & Hw).
        exists (S k), head. split; [lia|auto].
    + intros (k & head & -> & Hn & Hw). destruct k as [|k]; simpl in Hn.
      * inversion Hn; subst. rewrite Hw. left. lia.
      * assert (In (i + S k)%nat (want_ptrs spec repo (S i) rest)) as Hin.
        { apply IH. exists k, head. split; [lia|auto]. }
        destruct (wanted spec repo h); [right|]; exact Hin.
Qed.

Lemma want_ptrs_nil (hs : list git_remote_head) :
  (forall head, In head hs -> wanted spec repo head = false) ->
  forall i, want_ptrs spec repo i hs = [].
Proof.
  induction hs as [|h rest IH]; intros Hall i; [reflexivity|].
  cbn [want_ptrs]. rewrite (Hall h) by now left.
  apply IH. intros head Hin. apply Hall. now right.
Qed.

(** The pointers come in advertisement order. *)
Lemma want_ptrs_sorted (hs : list git_remote_head) :
  forall i, StronglySorted lt (want_ptrs spec repo i hs).
Proof.
  induction hs as [|h rest IH]; intros i; simpl; [constructor|].
  destruct (wanted spec repo h); [|apply IH].
  constructor; [apply IH|].
  apply Forall_forall. intros p Hp. apply want_ptrs_In in Hp.
  destruct Hp as (k & _ & -> & _). lia.
Qed.

Lemma wanted_classified (head : git_remote_head) :
  wanted spec repo head = true ->
  h_type (classify spec repo head) = GIT_WHN_WANT.
Proof.
  intros W. unfold classify. rewrite W.
  now destruct
        (snd (git_reference_lookup repo (local_name spec (h_name head)))).
Qed.

Lemma deref_classified (hs : list git_remote_head) (p : head_ptr) :
  In p (want_ptrs spec repo 0 hs) ->
  h_type (deref (map (classify spec repo) hs) p) = GIT_WHN_WANT.
Proof.
  intros Hp. apply want_ptrs_In in Hp. destruct Hp as (k & head & -> & Hn & W).
  unfold deref. simpl.
  rewrite (nth_error_nth (map (classify spec repo) hs) k null_head
             (x := classify spec repo head)).
  - now apply wanted_classified.
  - now rewrite nth_error_map, Hn.
Qed.

(** [wanted] says what the claim says. *)
Lemma wanted_iff (head : git_remote_head) :
  GIT_SUCCESS <= git_refspec_src_match spec (h_name head) \/
  git_refspec_src_match spec (h_name head) = GIT_ENOMATCH ->
  wanted spec repo head = true <->
  src_matches spec (h_name head) /\ ~ up_to_date spec repo head.
Proof.
  intros Hcode. unfold wanted, src_matches, up_to_date, git_reference_lookup.
  rewrite andb_true_iff, negb_true_iff, Z.eqb_neq.
  destruct (repo_lookup repo (local_name spec (h_name head))) as [r|e] eqn:L;
    cbn [snd].
  - rewrite negb_true_iff, Z.eqb_neq, git_oid_cmp_eq.
    unfold git_reference_oid. split.
    + intros [Hm Hne]. split; [split; [exact Hm|lia]|].
      intros (r' & Hr & Heq). inversion Hr; subst. congruence.
    + intros [[Hm _] Hn]. split; [exact Hm|].
      intros Heq. apply Hn. exists r. auto.
  - split.
    + intros [Hm _]. split; [split; [exact Hm|lia]|].
      intros (r' & Hr & _). discriminate.
    + intros [[Hm _] _]. auto.
Qed.

End WantList.

(** ** [filter_wants] as a whole *)

Section FilterWants.

Context {K : git_consts}.
Variable mem : allocator.

(** A successful run: the loop ran to its end, the want list holds the
    pointers to the wanted heads in advertisement order, and the heads are
    classified in place. *)
Lemma filter_wants_success (remote remote' : git_remote) (tr : trace)
    (spec : git_refspec) :
  fetch remote = Some spec ->
  filter_wants mem remote = (tr, GIT_SUCCESS, remote') ->
  let hs := t_heads (transport remote) in
  let wl := want_ptrs spec (repo remote) 0 hs in
  (vector_init_code mem <? GIT_SUCCESS) = false /\
  (t_ls (transport remote) <? GIT_SUCCESS) = false /\
  (exists tr', tr = EvTransportLs (t_ls (transport remote)) :: tr' /\
               Forall (fun e => is_head_call e = true) tr') /\
  Forall (fun head =>
            GIT_SUCCESS <= git_refspec_src_match spec (h_name head) \/
            git_refspec_src_match spec (h_name head) = GIT_ENOMATCH) hs /\
  remote' =
    set_refs
      (set_transport remote
         (set_heads (transport remote) (map (classify spec (repo remote)) hs)))
      (mk_headarray (List.length wl) wl).
Proof.
  intros Hspec H. unfold filter_wants, git_remote_fetchspec in H.
  rewrite Hspec in H. unfold git__rethrow in H.
  destruct (vector_init_code mem <? GIT_SUCCESS) eqn:E0.
  { inversion H. lia. }
  destruct (t_ls (transport remote) <? GIT_SUCCESS) eqn:E1.
  { inversion H. lia. }
  destruct
    (filter_loop spec (repo remote) mem 0 (t_heads (transport remote)) [])
    as [[tr' ex] hs'] eqn:L.
  destruct ex as [e|v].
  - apply filter_loop_cleanup in L. inversion H. lia.
  - pose proof (filter_loop_completed_matches _ _ _ _ _ _ _ _ _ L) as Hm.
    pose proof (filter_loop_calls _ _ _ _ _ _ _ _ _ L) as Hc.
    apply filter_loop_completed in L. destruct L as [-> ->]. cbn [app] in H.
    rewrite git_vector_sort_ties in H.
    + inversion H; subst. repeat split; eauto.
    + intros a b Ha Hb. unfold ptr_cmp. apply whn_cmp_same_type.
      now rewrite !deref_classified.
Qed.

(** Nothing is wanted when every advertised head fails the source pattern
    or is up to date. *)
Lemma filter_wants_nothing_wanted (remote remote' : git_remote) (tr : trace)
    (spec : git_refspec) :
  fetch remote = Some spec ->
  filter_wants mem remote = (tr, GIT_SUCCESS, remote') ->
  (forall head, In head (t_heads (transport remote)) ->
                ~ src_matches spec (h_name head) \/
                up_to_date spec (repo remote) head) ->
  len (refs remote') = 0%nat /\ heads (refs remote') = [].
Proof.
  intros Hspec H Hall.
  destruct (filter_wants_success remote remote' tr spec Hspec H)
    as (_ & _ & _ & Hm & ->).
  cbn [refs set_refs len heads].
  rewrite Forall_forall in Hm.
  rewrite want_ptrs_nil; [auto|].
  intros head Hin. destruct (wanted spec (repo remote) head) eqn:W; [|auto].
  apply (wanted_iff spec (repo remote) head (Hm head Hin)) in W.
  destruct W as [Wm Wu]. destruct (Hall head Hin); contradiction.
Qed.

End FilterWants.


(** ** Kinds of calls *)

Lemma head_call_local (tr : trace) :
  Forall (fun e => is_head_call e = true) tr ->
  Forall (fun e => is_local_call e = true) tr.
Proof.
  apply Forall_impl. intros e He. unfold is_local_call. now rewrite He.
Qed.

Lemma local_call_not_transport (tr : trace) :
  Forall (fun e => is_local_call e = true) tr ->
  filter is_transport_call tr = [] /\ filter is_walker_call tr = [] /\
  filter is_revwalk_free tr = [] /\ haves_of tr = [] /\
  (forall c, ~ In (EvRevwalkNew c) tr) /\ (forall c, ~ In (EvRevwalkNext c) tr).
Proof.
  induction 1 as [|e tr He _ IH]; simpl.
  - repeat split; auto.
  - destruct IH as (I1 & I2 & I3 & I4 & I5 & I6).
    destruct e; try discriminate He; simpl; repeat split; auto;
      intros c [Hc|Hc]; try discriminate Hc; firstorder.
Qed.

Lemma seed_call_facts (tr : trace) :
  Forall (fun e => is_seed_call e = true) tr ->
  filter is_transport_call tr = [] /\ filter is_revwalk_free tr = [] /\
  haves_of tr = [] /\
  (forall c, ~ In (EvRevwalkNew c) tr) /\ (forall c, ~ In (EvRevwalkNext c) tr).
Proof.
  induction 1 as [|e tr He _ IH]; simpl.
  - repeat split; auto.
  - destruct IH as (I1 & I2 & I3 & I4 & I5).
    destruct e; try discriminate He; simpl; repeat split; auto;
      intros c [Hc|Hc]; try discriminate Hc; firstorder.
Qed.

(** ** Calls and frame of [filter_wants] *)

Section FilterWantsCalls.

Context {K : git_consts}.
Variable mem : allocator.

(** Either the vector could not be set up and nothing was called, or the
    advertisement was listed once and only local calls followed. *)
Lemma filter_wants_calls (remote remote' : git_remote) (tr : trace) (e : Z) :
  filter_wants mem remote = (tr, e, remote') ->
  (tr = [] /\ (vector_init_code mem <? GIT_SUCCESS) = true /\
   e = vector_init_code mem) \/
  ((vector_init_code mem <? GIT_SUCCESS) = false /\
   exists tr', tr = EvTransportLs (t_ls (transport remote)) :: tr' /\
               Forall (fun e => is_local_call e = true) tr').
Proof.
  unfold filter_wants. intros H.
  destruct (vector_init_code mem <? GIT_SUCCESS) eqn:E0.
  { inversion H; subst. left. auto. }
  right. split; [reflexivity|].
  destruct (t_ls (transport remote) <? GIT_SUCCESS).
  { inversion H; subst. eexists; split; [reflexivity|]. repeat constructor. }
  destruct (git_remote_fetchspec remote) as [spec|].
  2:{ inversion H; subst. eexists; split; [reflexivity|]. repeat constructor. }
  destruct
    (filter_loop spec (repo remote) mem 0 (t_heads (transport remote)) [])
    as [[tr' ex] hs'] eqn:L.
  apply filter_loop_calls, head_call_local in L.
  destruct ex; inversion H; subst; (eexists; split; [reflexivity|]); auto.
  apply Forall_app; split; [assumption|repeat constructor].
Qed.

(** What a call that does not return [GIT_SUCCESS] leaves behind: the
    stored reference list is untouched and the vector has been freed. *)
Lemma filter_wants_failure (remote remote' : git_remote) (tr : trace) (e : Z) :
  filter_wants mem remote = (tr, e, remote') ->
  e <> GIT_SUCCESS ->
  refs remote' = refs remote /\
  (tr = [] \/ exists tr', tr = tr' ++ [EvVectorFree]).
Proof.
  unfold filter_wants. intros H Hne.
  destruct (vector_init_code mem <? GIT_SUCCESS).
  { injection H as <- <- <-. auto. }
  destruct (t_ls (transport remote) <? GIT_SUCCESS).
  { injection H as <- <- <-. split; [reflexivity|]. right.
    now exists [EvTransportLs (t_ls (transport remote))]. }
  destruct (git_remote_fetchspec remote) as [spec|].
  2:{ injection H as <- <- <-. split; [reflexivity|]. right.
      now exists [EvTransportLs (t_ls (transport remote))]. }
  destruct
    (filter_loop spec (repo remote) mem 0 (t_heads (transport remote)) [])
    as [[tr' ex] hs'].
  destruct ex; injection H as <- <- <-; [|congruence].
  split; [reflexivity|]. right.
  exists (EvTransportLs (t_ls (transport remote)) :: tr'). reflexivity.
Qed.

(** [filter_wants] never touches the repository or the refspec. *)
Lemma filter_wants_frame (remote remote' : git_remote) (tr : trace) (e : Z) :
  filter_wants mem remote = (tr, e, remote') ->
  repo remote' = repo remote /\ fetch remote' = fetch remote /\
  t_ls (transport remote') = t_ls (transport remote).
Proof.
  unfold filter_wants. intros H.
  destruct (vector_init_code mem <? GIT_SUCCESS).
  { inversion H; subst. auto. }
  destruct (t_ls (transport remote) <? GIT_SUCCESS).
  { inversion H; subst. auto. }
  destruct (git_remote_fetchspec remote) as [spec|].
  2:{ inversion H; subst. auto. }
  destruct
    (filter_loop spec (repo remote) mem 0 (t_heads (transport remote)) [])
    as [[tr' ex] hs'].
  destruct ex; inversion H; subst; auto.
Qed.

End FilterWantsCalls.

(** ** The loops of [git_fetch_negotiate] *)

Section NegotiateLoops.

Context {K : git_consts}.
Variable repo : git_repository.

Lemma seed_loop_calls (names : list string) :
  forall walk tr ex,
    seed_loop repo names walk = (tr, ex) ->
    Forall (fun e => is_seed_call e = true) tr.
Proof.
  induction names as [|name rest IH]; intros walk tr ex H; simpl in H.
  - inversion H; constructor.
  - run_inv H.
    all: try match goal with
         | H : seed_loop _ _ _ = _ |- _ => apply IH in H
         end.
    all: repeat (apply Forall_app; split); repeat constructor; assumption.
Qed.

(** The seeding loop jumps to [cleanup] only on a code below [GIT_ERROR]. *)
Lemma seed_loop_cleanup (names : list string) :
  forall walk tr e,
    seed_loop repo names walk = (tr, SeedCleanup e) -> e < GIT_ERROR.
Proof.
  induction names as [|name rest IH]; intros walk tr e H; simpl in H.
  - inversion H.
  - unfold git__rethrow in H. run_inv H.
    all: try match goal with
         | H : seed_loop _ _ _ = _ |- _ => apply IH in H; assumption
         end.
    all: lia.
Qed.

Lemma pushed_of_app (tr1 tr2 : trace) :
  pushed_of (tr1 ++ tr2) = pushed_of tr1 ++ pushed_of tr2.
Proof.
  induction tr1 as [|e tr1 IH]; simpl; [reflexivity|].
  destruct e; try exact IH.
  destruct (code <? GIT_SUCCESS); simpl; now rewrite IH.
Qed.

Lemma git_revwalk_push_spec (w w' : git_revwalk) (o : git_oid) (e : Z) :
  git_revwalk_push repo w o = (e, w') ->
  e = repo_revwalk_push repo o /\
  walk_seeds w' = walk_seeds w ++ (if e <? GIT_SUCCESS then [] else [o]).
Proof.
  unfold git_revwalk_push. intros H.
  destruct (repo_revwalk_push repo o <? GIT_SUCCESS) eqn:E;
    inversion H; subst; rewrite E; simpl; now rewrite ?app_nil_r.
Qed.

(** A loop that runs to its end has pushed the tips of [names]. *)
Lemma seed_loop_seeded (names : list string) :
  forall w0 tr w,
    seed_loop repo names (Some w0) = (tr, Seeded (Some w)) ->
    walk_seeds w = walk_seeds w0 ++ tips_of repo names /\
    pushed_of tr = tips_of repo names.
Proof.
  induction names as [|name rest IH]; intros w0 tr w H; simpl in H.
  - inversion H; subst. simpl. now rewrite app_nil_r.
  - unfold git_reference_lookup, git_reference_oid in H.
    simpl. destruct (repo_lookup repo name) as [r|e]; run_inv H.
    match goal with
    | H : seed_loop _ _ _ = _ |- _ => apply IH in H; destruct H as [-> Hp]
    end.
    match goal with
    | H : git_revwalk_push _ _ _ = _ |- _ =>
        apply git_revwalk_push_spec in H; destruct H as [-> ->]
    end.
    cbn [app pushed_of]. rewrite Hp, <- app_assoc.
    destruct (repo_revwalk_push repo (ref_oid r) <? GIT_SUCCESS); auto.
Qed.

Lemma seed_loop_none (names : list string) :
  forall tr w, seed_loop repo names None = (tr, Seeded w) -> w = None.
Proof.
  destruct names as [|name rest]; intros tr w H; simpl in H.
  - now inversion H.
  - run_inv H.
Qed.

End NegotiateLoops.

Section HaveLoop.

Context {K : git_consts}.
Variable t : git_transport.

(** The have loop sends the walk, one have per step, and leaves [error] at
    the code that ended the walk. *)
Lemma have_loop_spec (pending : list git_oid) (last : Z) :
  forall tr e,
    have_loop t pending last = (tr, e) ->
    e = last /\ haves_of tr = pending /\
    filter is_transport_call tr =
      map (fun o => EvSendHave o (t_send_have t o)) pending /\
    filter is_revwalk_free tr = [] /\
    (forall c, ~ In (EvRevwalkNew c) tr) /\
    (forall c, In (EvRevwalkNext c) tr -> c = GIT_SUCCESS \/ c = last) /\
    pushed_of tr = [].
Proof.
  induction pending as [|o rest IH]; intros tr e H; simpl in H.
  - inversion H; subst. simpl. repeat split; auto.
    + intros c [Hc|[]]. discriminate.
    + intros c [Hc|[]]. inversion Hc. auto.
  - destruct (have_loop t rest last) as [tr' e'] eqn:L. inversion H; subst.
    destruct (IH _ _ eq_refl) as (-> & I2 & I3 & I4 & I5 & I6 & I7).
    simpl. rewrite I2, I3. repeat split; auto.
    + intros c [Hc|[Hc|Hc]]; try discriminate. firstorder.
    + intros c [Hc|[Hc|Hc]]; try discriminate; [inversion Hc|]; auto.
Qed.

End HaveLoop.

(** ** Facts about the pieces of a negotiation trace *)

Section TraceFacts.

Context {K : git_consts}.

Lemma filter_wants_trace_facts (mem : allocator) (remote remote' : git_remote)
    (tr : trace) (e : Z) :
  filter_wants mem remote = (tr, e, remote') ->
  filter is_send_call tr = [] /\ filter is_revwalk_free tr = [] /\
  haves_of tr = [] /\ pushed_of tr = [] /\
  (forall c, ~ In (EvRevwalkNew c) tr) /\ (forall c, ~ In (EvRevwalkNext c) tr).
Proof.
  intros H.
  destruct (filter_wants_calls mem _ _ _ _ H) as [(-> & _)|(_ & tr' & -> & Hl)].
  - cbn. repeat split; auto.
  - destruct (local_call_not_transport tr' Hl) as (_ & _ & I3 & I4 & I5 & I6).
    cbn. repeat split; auto.
    + clear - Hl. induction Hl as [|x tr' Hx _ IH]; [reflexivity|].
      cbn. destruct x; try discriminate Hx; exact IH.
    + clear - Hl. induction Hl as [|x tr' Hx _ IH]; [reflexivity|].
      cbn. destruct x; try discriminate Hx; exact IH.
    + intros c [Hc|Hc]; [discriminate|]. now apply (I5 c).
    + intros c [Hc|Hc]; [discriminate|]. now apply (I6 c).
Qed.

Lemma seed_loop_trace_facts (repo : git_repository) (names : list string)
    (walk : option git_revwalk) (tr : trace) (ex : seed_exit) :
  seed_loop repo names walk = (tr, ex) ->
  filter is_transport_call tr = [] /\ filter is_revwalk_free tr = [] /\
  haves_of tr = [] /\
  (forall c, ~ In (EvRevwalkNew c) tr) /\ (forall c, ~ In (EvRevwalkNext c) tr).
Proof. intros H. eapply seed_call_facts, seed_loop_calls, H. Qed.

Lemma filter_wants_transport_calls (mem : allocator)
    (remote remote' : git_remote) (tr : trace) (e : Z) :
  filter_wants mem remote = (tr, e, remote') ->
  (e <? GIT_SUCCESS) = false ->
  filter is_transport_call tr = [EvTransportLs (t_ls (transport remote))].
Proof.
  intros H He.
  destruct (filter_wants_calls mem _ _ _ _ H)
    as [(_ & E0 & ->)|(_ & tr' & -> & Hl)].
  - congruence.
  - destruct (local_call_not_transport tr' Hl) as (T & _). cbn. now rewrite T.
Qed.

Lemma git_reference_listall_some (repo : git_repository) (z : Z)
    (names : list string) :
  git_reference_listall repo = (z, Some names) ->
  names = snd (repo_listall repo).
Proof.
  unfold git_reference_listall. destruct (repo_listall repo) as [e l].
  destruct (e <? GIT_SUCCESS); intros H; inversion H; reflexivity.
Qed.

Lemma git_revwalk_new_some (repo : git_repository) (z : Z) (w : git_revwalk) :
  git_revwalk_new repo = (z, Some w) -> walk_seeds w = [].
Proof.
  unfold git_revwalk_new.
  destruct (repo_revwalk_new repo <? GIT_SUCCESS); intros H; inversion H;
    reflexivity.
Qed.

Lemma releases_app (tr1 tr2 : trace) :
  releases (tr1 ++ tr2) = (releases tr1 + releases tr2)%nat.
Proof. unfold releases. now rewrite filter_app, length_app. Qed.

Lemma haves_of_app (tr1 tr2 : trace) :
  haves_of (tr1 ++ tr2) = haves_of tr1 ++ haves_of tr2.
Proof.
  induction tr1 as [|e tr1 IH]; simpl; [reflexivity|].
  destruct (have_oid e); simpl; now rewrite IH.
Qed.

End TraceFacts.

(** Name the pieces of a run of [git_fetch_negotiate] and what is known of
    their calls. *)
Ltac negotiate_paths H :=
  unfold git_fetch_negotiate, git__rethrow in H;
  match type of H with
  | context [filter_wants ?m ?r] =>
      let F := fresh "F" in
      destruct (filter_wants m r) as [[?tr0 ?e0] ?r1] eqn:F;
      pose proof (filter_wants_trace_facts _ _ _ _ _ F)
  end;
  run_inv H;
  repeat match goal with
  | S : seed_loop _ _ _ = _ |- _ =>
      pose proof (seed_loop_trace_facts _ _ _ _ _ S); revert S
  | L : have_loop _ _ _ = _ |- _ =>
      pose proof (have_loop_spec _ _ _ _ _ L); revert L
  end; intros.

Section EndsWith.

Variables (A : Type) (x : A).

Lemma ends_single : exists t, [x] = t ++ [x].
Proof. now exists []. Qed.

Lemma ends_app (l1 l2 : list A) :
  (exists t, l2 = t ++ [x]) -> exists t, l1 ++ l2 = t ++ [x].
Proof. intros [t ->]. exists (l1 ++ t). now rewrite app_assoc. Qed.

Lemma ends_cons (a : A) (l2 : list A) :
  (exists t, l2 = t ++ [x]) -> exists t, a :: l2 = t ++ [x].
Proof. intros [t ->]. now exists (a :: t). Qed.

End EndsWith.

Ltac ends_with :=
  repeat first [apply ends_single | apply ends_app | apply ends_cons].

Ltac count_releases :=
  unfold releases;
  repeat first
    [ rewrite filter_app
    | rewrite length_app
    | match goal with
      | H : filter is_revwalk_free ?t = []
        |- context [filter is_revwalk_free ?t] => rewrite H
      end
    | progress cbn [filter is_revwalk_free List.length app Nat.add] ].

(** Find where in a trace a call sits; drop the places that hold no such
    call. *)
Ltac split_in :=
  repeat match goal with
  | H : In _ (_ ++ _) |- _ => apply in_app_or in H
  | H : In _ (_ :: _) |- _ => destruct H
  | H : In _ [] |- _ => destruct H
  | H : _ \/ _ |- _ => destruct H
  | H : False |- _ => destruct H
  | H : EvRevwalkNext _ = _ |- _ => discriminate H
  | H : _ = EvRevwalkNext _ |- _ => discriminate H
  | H : EvRevwalkNew _ = _ |- _ => discriminate H
  | H : _ = EvRevwalkNew _ |- _ =>
      try discriminate H; inversion H; subst; clear H
  | H : In (EvRevwalkNext ?c) ?t, N : forall c, ~ In (EvRevwalkNext c) ?t
    |- _ => destruct (N c H)
  | H : In (EvRevwalkNew ?c) ?t, N : forall c, ~ In (EvRevwalkNew c) ?t
    |- _ => destruct (N c H)
  end.

(** ** The sends' codes are only recorded *)

Section Quiet.

Context {K : git_consts}.

Lemma erase_no_send (tr : trace) :
  filter is_send_call tr = [] -> map erase_send_code tr = tr.
Proof.
  induction tr as [|e tr IH]; [reflexivity|]. cbn.
  destruct e; cbn; try discriminate; intros H; now rewrite IH.
Qed.

Lemma erase_no_transport (tr : trace) :
  filter is_transport_call tr = [] -> map erase_send_code tr = tr.
Proof.
  induction tr as [|e tr IH]; [reflexivity|]. cbn.
  destruct e; cbn; try discriminate; intros H; now rewrite IH.
Qed.

Lemma have_loop_quiet (t : git_transport) (pending : list git_oid) (last : Z) :
  have_loop (quiet t) pending last =
  (map erase_send_code (fst (have_loop t pending last)),
   snd (have_loop t pending last)).
Proof.
  induction pending as [|o rest IH]; [reflexivity|].
  cbn [have_loop]. rewrite IH.
  destruct (have_loop t rest last) as [tr e]. reflexivity.
Qed.

Lemma filter_wants_quiet (mem : allocator) (r : git_remote) :
  filter_wants mem (quiet_remote r) =
  (trace_of (filter_wants mem r), result_of (filter_wants mem r),
   quiet_remote (remote_of (filter_wants mem r))).
Proof.
  unfold filter_wants, quiet_remote, git_remote_fetchspec.
  cbn [transport repo fetch refs set_transport quiet t_ls t_heads].
  destruct (vector_init_code mem <? GIT_SUCCESS); [reflexivity|].
  destruct (t_ls (transport r) <? GIT_SUCCESS); [reflexivity|].
  destruct (fetch r) as [spec|]; [|reflexivity].
  destruct (filter_loop spec (repo r) mem 0 (t_heads (transport r)) [])
    as [[tr ex] hs'].
  destruct ex; reflexivity.
Qed.

(** Silencing the sends changes nothing but the codes in the trace. *)
Lemma negotiate_quiet (mem : allocator) (r : git_remote) :
  result_of (git_fetch_negotiate mem (quiet_remote r)) =
    result_of (git_fetch_negotiate mem r) /\
  trace_of (git_fetch_negotiate mem (quiet_remote r)) =
    map erase_send_code (trace_of (git_fetch_negotiate mem r)).
Proof.
  unfold git_fetch_negotiate. rewrite filter_wants_quiet.
  destruct (filter_wants mem r) as [[tr0 e0] r1] eqn:F.
  destruct (filter_wants_trace_facts _ _ _ _ _ F) as (S0 & _).
  apply erase_no_send in S0.
  unfold trace_of, result_of, remote_of, quiet_remote.
  cbn [fst snd transport repo fetch refs set_transport].
  destruct (e0 <? GIT_SUCCESS); [cbn; auto|].
  destruct (len (refs r1) =? 0)%nat; [cbn; auto|].
  destruct (git_reference_listall (repo r1)) as [e1 names].
  destruct (e1 <? GIT_ERROR);
    [cbn; rewrite !map_app, S0; auto|].
  destruct (git_revwalk_new (repo r1)) as [e2 walk].
  destruct (e2 <? GIT_ERROR);
    [cbn; rewrite !map_app, S0; auto|].
  destruct names as [names|]; [|cbn; rewrite !map_app, S0; auto].
  destruct (seed_loop (repo r1) names walk) as [tr1 ex] eqn:S.
  destruct (seed_loop_trace_facts _ _ _ _ _ S) as (S1 & _).
  apply erase_no_transport in S1.
  destruct ex as [e3| |[w|]];
    try (cbn; rewrite !map_app, S0, S1; auto; fail).
  destruct (repo_revwalk (repo r1) (walk_seeds w)) as [pending last].
  rewrite have_loop_quiet.
  destruct (have_loop (transport r1) pending last) as [tr2 e4].
  cbn. rewrite !map_app, S0, S1. cbn. rewrite !map_app. auto.
Qed.

End Quiet.

(** * The claims *)

Section Claims.

Context {K : git_consts}.

(** C1. When [filter_wants] succeeds, the head at position [i] of the
    advertisement is in the want list exactly when its name matches the
    source pattern of the fetch refspec and no local reference under the
    transformed name points at the head's remote identifier. *)
Theorem filter_wants_selects (mem : allocator) (remote remote' : git_remote)
    (tr : trace) (spec : git_refspec) :
  fetch remote = Some spec ->
  filter_wants mem remote = (tr, GIT_SUCCESS, remote') ->
  forall i head,
    nth_error (t_heads (transport remote)) i = Some head ->
    (In i (heads (refs remote')) <->
     src_matches spec (h_name head) /\ ~ up_to_date spec (repo remote) head).
Proof.
  intros Hspec H i head Hi.
  destruct (filter_wants_success mem remote remote' tr spec Hspec H)
    as (_ & _ & _ & Hm & ->).
  cbn [refs set_refs heads].
  rewrite want_ptrs_In.
  rewrite Forall_forall in Hm.
  assert (In head (t_heads (transport remote))) as Hin
    by (eapply nth_error_In; eassumption).
  rewrite <- (wanted_iff spec (repo remote) head (Hm head Hin)).
  split.
  - intros (k & head' & -> & Hk & W). simpl in Hi. congruence.
  - intros W. exists i, head. auto.
Qed.

(** C3 (amended). The codes reported by [send_wants], [send_have],
    [send_flush] and [send_done] are dropped: two remotes that differ only
    in what their sends report get the same return value and the same calls.
    The one transport failure that is fatal is that of the listing, whose
    code [git_fetch_negotiate] returns. *)
Theorem send_codes_discarded (mem : allocator) (r1 r2 : git_remote) :
  same_but_sends r1 r2 ->
  result_of (git_fetch_negotiate mem r1)
    = result_of (git_fetch_negotiate mem r2) /\
  map erase_send_code (trace_of (git_fetch_negotiate mem r1))
    = map erase_send_code (trace_of (git_fetch_negotiate mem r2)) /\
  ((vector_init_code mem <? GIT_SUCCESS) = false ->
   t_ls (transport r1) < GIT_SUCCESS ->
   result_of (git_fetch_negotiate mem r1) = Ret (t_ls (transport r1))).
Proof.
  intros (Hh & Hl & Hr & Hf & Hrefs).
  assert (quiet_remote r1 = quiet_remote r2) as Q.
  { destruct r1 as [[] ? ? ?], r2 as [[] ? ? ?]. cbn in *. now subst. }
  destruct (negotiate_quiet mem r1) as [R1 T1].
  destruct (negotiate_quiet mem r2) as [R2 T2].
  split; [|split].
  - now rewrite <- R1, <- R2, Q.
  - now rewrite <- T1, <- T2, Q.
  - intros E0 Els. unfold git_fetch_negotiate, filter_wants. rewrite E0.
    apply Z.ltb_lt in Els. rewrite Els. unfold git__rethrow. cbn.
    now rewrite Els.
Qed.

(** C4 (amended). Without a fetch refspec [filter_wants] fails and
    processes no head, but the advertisement has been listed by then: when
    the vector is set up, [git_transport_ls] is its one transport call, and
    when the listing succeeds too the error is the configuration error
    [GIT_ERROR]. The remote is left as it was. *)
Theorem filter_wants_no_fetchspec (mem : allocator) (remote : git_remote) :
  GIT_ERROR < GIT_SUCCESS ->
  fetch remote = None ->
  result_of (filter_wants mem remote) < GIT_SUCCESS /\
  remote_of (filter_wants mem remote) = remote /\
  filter is_head_call (trace_of (filter_wants mem remote)) = [] /\
  ((vector_init_code mem <? GIT_SUCCESS) = false ->
   filter is_transport_call (trace_of (filter_wants mem remote))
     = [EvTransportLs (t_ls (transport remote))] /\
   ((t_ls (transport remote) <? GIT_SUCCESS) = false ->
    result_of (filter_wants mem remote) = GIT_ERROR)).
Proof.
  intros Hk Hspec. unfold filter_wants, git_remote_fetchspec.
  rewrite Hspec.
  unfold git__rethrow, git__throw, result_of, remote_of, trace_of.
  destruct (vector_init_code mem <? GIT_SUCCESS) eqn:E0; cbn.
  { repeat split; try discriminate; lia. }
  destruct (t_ls (transport remote) <? GIT_SUCCESS) eqn:E1; cbn.
  - repeat split; try discriminate; lia.
  - repeat split; auto; lia.
Qed.

(** C5. When [filter_wants] succeeds with an empty want list,
    [git_fetch_negotiate] returns [GIT_SUCCESS] at once: its calls are those
    of [filter_wants], of which the listing is the only transport call, and
    no walker call is made. *)
Theorem negotiate_nothing_wanted (mem : allocator) (remote remote' : git_remote)
    (tr : trace) :
  filter_wants mem remote = (tr, GIT_SUCCESS, remote') ->
  len (refs remote') = 0%nat ->
  git_fetch_negotiate mem remote = (tr, Ret GIT_SUCCESS, remote') /\
  filter is_transport_call tr = [EvTransportLs (t_ls (transport remote))] /\
  filter is_send_call tr = [] /\
  filter is_walker_call tr = [].
Proof.
  intros H Hlen. unfold git_fetch_negotiate. rewrite H, Z.ltb_irrefl, Hlen.
  split; [reflexivity|].
  destruct (filter_wants_calls mem _ _ _ _ H)
    as [(_ & E0 & He)|(_ & tr' & -> & Hl)].
  - rewrite <- He in E0. lia.
  - destruct (local_call_not_transport tr' Hl) as (T & W & _).
    cbn. rewrite T, W. repeat split.
    clear - Hl. induction Hl as [|e tr' He _ IH]; [reflexivity|].
    cbn. destruct e; try discriminate He; exact IH.
Qed.

(** C6 (amended). Whenever [git_fetch_negotiate] returns: if a walker was
    created, [git_revwalk_free] has been called exactly once, as the last
    call before the return; if [git_revwalk_new] was never called (failure
    of the want filter, empty want list, failure to enumerate the local
    references), no walker is released. *)
Theorem walker_released_once (mem : allocator) (remote remote' : git_remote)
    (tr : trace) (c : Z) :
  git_fetch_negotiate mem remote = (tr, Ret c, remote') ->
  (walker_created tr ->
   releases tr = 1%nat /\ exists tr', tr = tr' ++ [EvRevwalkFree]) /\
  (~ walker_requested tr -> releases tr = 0%nat).
Proof.
  intros H. negotiate_paths H.
  all: repeat match goal with H : _ /\ _ |- _ => destruct H end.
  all: split; [intros (c' & Hin & Hc')|intros Hno].
  all: split_in.
  all: try (exfalso; apply Hno; eexists; rewrite ?in_app_iff; cbn [In];
            eauto 10; fail).
  all: try (split; [|ends_with]).
  all: count_releases; reflexivity.
Qed.

(** C7. The want list [filter_wants] returns is in descending order of
    classification, and two entries of equal classification come in the
    order their heads have in the advertisement.  ([git_vector_sort] is
    modelled as the stable sort the specification describes; every entry
    carries [GIT_WHN_WANT] when it runs.) *)
Theorem wantlist_sorted_stable (mem : allocator) (remote remote' : git_remote)
    (tr : trace) (spec : git_refspec) :
  fetch remote = Some spec ->
  filter_wants mem remote = (tr, GIT_SUCCESS, remote') ->
  forall a b pa pb,
    (a < b)%nat ->
    nth_error (heads (refs remote')) a = Some pa ->
    nth_error (heads (refs remote')) b = Some pb ->
    ptr_type (t_heads (transport remote')) pb
      <= ptr_type (t_heads (transport remote')) pa /\
    (ptr_type (t_heads (transport remote')) pa
       = ptr_type (t_heads (transport remote')) pb -> (pa < pb)%nat).
Proof.
  intros Hspec H a b pa pb Hab Ha Hb.
  destruct (filter_wants_success mem remote remote' tr spec Hspec H)
    as (_ & _ & _ & _ & ->).
  cbn [refs set_refs heads transport set_transport t_heads set_heads] in *.
  unfold ptr_type.
  rewrite !deref_classified by (eapply nth_error_In; eassumption).
  split; [lia|]. intros _.
  exact (nth_error_sorted lt _ (want_ptrs_sorted spec (repo remote) _ 0%nat)
           a b pa pb Hab Ha Hb).
Qed.

(** C8. When a call of [git_revwalk_next] reports the end of the walk,
    [git_fetch_negotiate] returns [GIT_SUCCESS], however many haves went
    before and whatever the flush and done calls report. *)
Theorem exhaustion_is_success (mem : allocator) (remote remote' : git_remote)
    (tr : trace) (out : outcome) :
  GIT_EREVWALKOVER <> GIT_SUCCESS ->
  git_fetch_negotiate mem remote = (tr, out, remote') ->
  In (EvRevwalkNext GIT_EREVWALKOVER) tr ->
  out = Ret GIT_SUCCESS.
Proof.
  intros Hk H Hin. negotiate_paths H.
  all: repeat match goal with H : _ /\ _ |- _ => destruct H end.
  all: split_in.
  match goal with
  | H : In (EvRevwalkNext _) ?t,
    N : forall c, In (EvRevwalkNext c) ?t -> _ |- _ =>
      destruct (N _ H) as [E|E]; [congruence|]
  end.
  subst. now rewrite Z.eqb_refl.
Qed.

(** What a successful negotiation with a want list that is not empty looks
    like from the transport and from the walker. *)
Lemma negotiate_success_shape (mem : allocator) (remote remote' : git_remote)
    (tr : trace) :
  GIT_ERROR < GIT_SUCCESS ->
  git_fetch_negotiate mem remote = (tr, Ret GIT_SUCCESS, remote') ->
  len (refs remote') <> 0%nat ->
  filter is_transport_call tr =
    EvTransportLs (t_ls (transport remote))
    :: EvSendWants (heads (refs remote'))
         (t_send_wants (transport remote') (heads (refs remote')))
    :: map (fun o => EvSendHave o (t_send_have (transport remote') o))
         (haves_of tr)
    ++ [EvSendFlush (t_send_flush (transport remote'));
        EvSendDone (t_send_done (transport remote'))] /\
  pushed_of tr = local_tips (repo remote) /\
  haves_of tr = fst (repo_revwalk (repo remote) (pushed_of tr)).
Proof.
  intros Hk H Hlen. negotiate_paths H.
  all: repeat match goal with H : _ /\ _ |- _ => destruct H end.
  all: try match goal with
       | H : seed_loop _ _ _ = (_, SeedCleanup _) |- _ =>
           apply seed_loop_cleanup in H
       end.
  all: try lia.
  { match goal with
    | H : (_ =? _)%nat = true |- _ => apply Nat.eqb_eq in H; contradiction
    end. }
  pose proof (filter_wants_transport_calls _ _ _ _ _ F Heqb) as T0.
  destruct (filter_wants_frame _ _ _ _ _ F) as (R & _ & _). rewrite <- R.
  destruct o0 as [w0|];
    [|apply seed_loop_none in Heqp1; discriminate Heqp1].
  apply seed_loop_seeded in Heqp1. destruct Heqp1 as [Hg Hp].
  apply git_revwalk_new_some in Heqp0. rewrite Heqp0 in Hg. cbn [app] in Hg.
  apply git_reference_listall_some in Heqp. subst l.
  fold (local_tips (repo remote')) in Hg, Hp.
  repeat (rewrite ?filter_app, ?haves_of_app, ?pushed_of_app;
          cbn [filter is_transport_call haves_of have_oid pushed_of app]).
  repeat match goal with
         | H : ?x = _ |- context [?x] => rewrite H
         end.
  cbn [app]. rewrite ?app_nil_r. repeat split.
  rewrite <- R, <- Hg, Heqp2. reflexivity.
Qed.

(** C9. In successful negotiations with a want list that is not empty, the
    transport sees the listing, then one [send_wants] with the whole want
    list, then the haves, then flush and done; the haves are the walk from
    the tips pushed, in the walker's order; and runs against one repository
    state send the same haves, whatever the remote advertises. *)
Theorem wants_then_haves_in_walk_order (mem1 mem2 : allocator)
    (r1 r2 r1' r2' : git_remote) (tr1 tr2 : trace) :
  GIT_ERROR < GIT_SUCCESS ->
  repo r1 = repo r2 ->
  git_fetch_negotiate mem1 r1 = (tr1, Ret GIT_SUCCESS, r1') ->
  len (refs r1') <> 0%nat ->
  git_fetch_negotiate mem2 r2 = (tr2, Ret GIT_SUCCESS, r2') ->
  len (refs r2') <> 0%nat ->
  filter is_transport_call tr1 =
    EvTransportLs (t_ls (transport r1))
    :: EvSendWants (heads (refs r1'))
         (t_send_wants (transport r1') (heads (refs r1')))
    :: map (fun o => EvSendHave o (t_send_have (transport r1') o))
         (haves_of tr1)
    ++ [EvSendFlush (t_send_flush (transport r1'));
        EvSendDone (t_send_done (transport r1'))] /\
  haves_of tr1 = fst (repo_revwalk (repo r1) (pushed_of tr1)) /\
  haves_of tr1 = walk_order (repo r1) /\
  haves_of tr2 = haves_of tr1.
Proof.
  intros Hk Hrepo H1 L1 H2 L2.
  destruct (negotiate_success_shape _ _ _ _ Hk H1 L1) as (T1 & P1 & W1).
  destruct (negotiate_success_shape _ _ _ _ Hk H2 L2) as (_ & P2 & W2).
  repeat split; try assumption.
  - rewrite W1, P1. reflexivity.
  - rewrite W1, W2, P1, P2, Hrepo. reflexivity.
Qed.

(** C10. A call of [filter_wants] that does not return [GIT_SUCCESS] leaves
    the remote's stored reference list (length and heads) as it was, and the
    vector it was building, if one was set up, has been freed. *)
Theorem filter_wants_failure_keeps_refs (mem : allocator)
    (remote remote' : git_remote) (tr : trace) (e : Z) :
  filter_wants mem remote = (tr, e, remote') ->
  e <> GIT_SUCCESS ->
  len (refs remote') = len (refs remote) /\
  heads (refs remote') = heads (refs remote) /\
  (tr = [] \/ exists tr', tr = tr' ++ [EvVectorFree]).
Proof.
  intros H He. destruct (filter_wants_failure mem _ _ _ _ H He) as [-> Htr].
  auto.
Qed.

End Claims.

(** ** Runs on the concrete inputs *)

Section Runs.

Import Example.
Local Existing Instance libgit2.

Lemma filter_wants_selects_witness :
  In 1%nat (heads (refs (remote_of (filter_wants mem0 rem0)))) <->
  src_matches origin "refs/heads/main" /\
  ~ up_to_date origin rp (mk_head 0 false 2%N 0%N "refs/heads/main").
Proof.
  assert (filter_wants mem0 rem0 =
          (trace_of (filter_wants mem0 rem0), GIT_SUCCESS,
           remote_of (filter_wants mem0 rem0))) as H
    by (vm_compute; reflexivity).
  exact (filter_wants_selects mem0 rem0 _ _ origin eq_refl H 1%nat
           (mk_head 0 false 2%N 0%N "refs/heads/main") eq_refl).
Defined.

(** C2, violated: pushing the first two tips fails with [GIT_ERROR]; the
    loop goes on seeding, the walk is sent, and the call returns
    [GIT_SUCCESS]. *)
Lemma seeding_failure_goes_unnoticed :
  trace_of (git_fetch_negotiate mem0 rem_push_fails) =
    [ EvTransportLs 0;
      EvSrcMatch "HEAD" (-31);
      EvSrcMatch "refs/heads/main" 0; EvTransform "refs/heads/main" 0;
      EvLookup "refs/remotes/origin/main" 0; EvVectorInsert 1%nat 0;
      EvSrcMatch "refs/heads/dev" 0; EvTransform "refs/heads/dev" 0;
      EvLookup "refs/remotes/origin/dev" 0;
      EvSrcMatch "refs/heads/new" 0; EvTransform "refs/heads/new" 0;
      EvLookup "refs/remotes/origin/new" (-3); EvVectorInsert 3%nat 0;
      EvSrcMatch "refs/tags/v1" (-31);
      EvSendWants [1%nat; 3%nat] 0; EvListall 0; EvRevwalkNew 0;
      EvLookup "refs/heads/main" 0; EvRevwalkPush 1%N (-1);
      EvLookup "refs/remotes/origin/main" 0; EvRevwalkPush 1%N (-1);
      EvLookup "refs/remotes/origin/dev" 0; EvRevwalkPush 3%N 0;
      EvStrarrayFree;
      EvRevwalkNext 0; EvSendHave 3%N 0; EvRevwalkNext (-20);
      EvSendFlush 0; EvSendDone 0; EvRevwalkFree ] /\
  result_of (git_fetch_negotiate mem0 rem_push_fails) = Ret GIT_SUCCESS.
Proof. split; vm_compute; reflexivity. Qed.

(** C3, as worded, fails: every send reports a failure and the
    negotiation returns [GIT_SUCCESS]. *)
Lemma send_failure_fatal_counterexample :
  ~ send_failure_fatal mem0 rem_sends_fail.
Proof.
  intros H.
  assert (send_failed (trace_of (git_fetch_negotiate mem0 rem_sends_fail)))
    as Hs.
  { exists (EvSendFlush (-5)), (-5). vm_compute. intuition discriminate. }
  destruct (H Hs) as (c & Hc & Hlt). vm_compute in Hc.
  injection Hc as <-. vm_compute in Hlt. discriminate Hlt.
Qed.

Lemma send_codes_discarded_witness :
  (result_of (git_fetch_negotiate mem0 rem0)
     = result_of (git_fetch_negotiate mem0 rem_sends_fail) /\
   map erase_send_code (trace_of (git_fetch_negotiate mem0 rem0))
     = map erase_send_code
         (trace_of (git_fetch_negotiate mem0 rem_sends_fail))) /\
  result_of (git_fetch_negotiate mem0 rem_ls_fails) = Ret (-5).
Proof.
  assert (same_but_sends rem0 rem_sends_fail) as H
    by (repeat split; reflexivity).
  assert (same_but_sends rem_ls_fails rem_ls_fails) as H'
    by (repeat split; reflexivity).
  destruct (send_codes_discarded mem0 rem0 rem_sends_fail H) as (R & T & _).
  destruct (send_codes_discarded mem0 rem_ls_fails rem_ls_fails H')
    as (_ & _ & L).
  split; [split; [exact R|exact T]|].
  apply L; vm_compute; reflexivity.
Defined.

(** C4, as worded, fails: without a refspec the advertisement is listed
    all the same. *)
Lemma fetchspec_checked_first_counterexample :
  ~ fetchspec_checked_first mem0 rem_nospec.
Proof.
  intros H. destruct (H eq_refl) as (_ & T & _).
  vm_compute in T. discriminate T.
Qed.

Lemma filter_wants_no_fetchspec_witness :
  result_of (filter_wants mem0 rem_nospec) = GIT_ERROR /\
  filter is_transport_call (trace_of (filter_wants mem0 rem_nospec))
    = [EvTransportLs 0] /\
  filter is_head_call (trace_of (filter_wants mem0 rem_nospec)) = [].
Proof.
  assert (GIT_ERROR < GIT_SUCCESS) as Hk by (vm_compute; reflexivity).
  destruct (filter_wants_no_fetchspec mem0 rem_nospec Hk eq_refl)
    as (_ & _ & Hh & Ht).
  destruct (Ht eq_refl) as (Hl & He).
  split; [exact (He eq_refl)|]. split; [exact Hl|exact Hh].
Defined.

Lemma negotiate_nothing_wanted_witness :
  git_fetch_negotiate mem0 rem_same
    = (trace_of (filter_wants mem0 rem_same), Ret GIT_SUCCESS,
       remote_of (filter_wants mem0 rem_same)) /\
  filter is_transport_call (trace_of (filter_wants mem0 rem_same))
    = [EvTransportLs (t_ls (transport rem_same))] /\
  filter is_send_call (trace_of (filter_wants mem0 rem_same)) = [] /\
  filter is_walker_call (trace_of (filter_wants mem0 rem_same)) = [].
Proof.
  assert (filter_wants mem0 rem_same =
          (trace_of (filter_wants mem0 rem_same), GIT_SUCCESS,
           remote_of (filter_wants mem0 rem_same))) as H
    by (vm_compute; reflexivity).
  exact (negotiate_nothing_wanted mem0 rem_same _ _ H eq_refl).
Defined.

(** C6, as worded, fails: with nothing wanted the call returns without
    any release, no walker having been created. *)
Lemma released_once_counterexample : ~ released_once mem0 rem_same.
Proof.
  intros H. specialize (H eq_refl 0 eq_refl). vm_compute in H. discriminate H.
Qed.

Lemma walker_released_once_witness :
  releases (trace_of (git_fetch_negotiate mem0 rem0)) = 1%nat /\
  exists tr', trace_of (git_fetch_negotiate mem0 rem0) = tr' ++ [EvRevwalkFree].
Proof.
  assert (git_fetch_negotiate mem0 rem0 =
          (trace_of (git_fetch_negotiate mem0 rem0), Ret 0,
           remote_of (git_fetch_negotiate mem0 rem0))) as H
    by (vm_compute; reflexivity).
  destruct (walker_released_once mem0 rem0 _ _ 0 H) as [Hc _].
  apply Hc. exists 0. split; [vm_compute; tauto|vm_compute; discriminate].
Defined.

(** The path C6 (amended) is silent about: [git_revwalk_new] fails, and
    the cleanup calls [git_revwalk_free] all the same. *)
Lemma release_without_walker :
  trace_of (git_fetch_negotiate mem0 rem_no_walker) =
    [ EvTransportLs 0;
      EvSrcMatch "HEAD" (-31);
      EvSrcMatch "refs/heads/main" 0; EvTransform "refs/heads/main" 0;
      EvLookup "refs/remotes/origin/main" 0; EvVectorInsert 1%nat 0;
      EvSrcMatch "refs/heads/dev" 0; EvTransform "refs/heads/dev" 0;
      EvLookup "refs/remotes/origin/dev" 0;
      EvSrcMatch "refs/heads/new" 0; EvTransform "refs/heads/new" 0;
      EvLookup "refs/remotes/origin/new" (-3); EvVectorInsert 3%nat 0;
      EvSrcMatch "refs/tags/v1" (-31);
      EvSendWants [1%nat; 3%nat] 0; EvListall 0;
      EvRevwalkNew (-4); EvRevwalkFree ] /\
  result_of (git_fetch_negotiate mem0 rem_no_walker) = Ret (-4).
Proof. split; vm_compute; reflexivity. Qed.

Lemma wantlist_sorted_stable_witness :
  ptr_type (t_heads (transport (remote_of (filter_wants mem0 rem0)))) 3%nat
    <= ptr_type (t_heads (transport (remote_of (filter_wants mem0 rem0)))) 1%nat
  /\
  (ptr_type (t_heads (transport (remote_of (filter_wants mem0 rem0)))) 1%nat
     = ptr_type (t_heads (transport (remote_of (filter_wants mem0 rem0)))) 3%nat
   -> (1 < 3)%nat).
Proof.
  assert (filter_wants mem0 rem0 =
          (trace_of (filter_wants mem0 rem0), GIT_SUCCESS,
           remote_of (filter_wants mem0 rem0))) as H
    by (vm_compute; reflexivity).
  assert (0 < 1)%nat as Hlt by lia.
  exact (wantlist_sorted_stable mem0 rem0 _ _ origin eq_refl H
           0%nat 1%nat 1%nat 3%nat Hlt eq_refl eq_refl).
Defined.

Lemma exhaustion_is_success_witness :
  result_of (git_fetch_negotiate mem0 rem0) = Ret GIT_SUCCESS.
Proof.
  assert (GIT_EREVWALKOVER <> GIT_SUCCESS) as Hk by (vm_compute; discriminate).
  assert (git_fetch_negotiate mem0 rem0 =
          (trace_of (git_fetch_negotiate mem0 rem0),
           result_of (git_fetch_negotiate mem0 rem0),
           remote_of (git_fetch_negotiate mem0 rem0))) as H
    by (vm_compute; reflexivity).
  assert (In (EvRevwalkNext GIT_EREVWALKOVER)
             (trace_of (git_fetch_negotiate mem0 rem0))) as Hin
    by (vm_compute; tauto).
  exact (exhaustion_is_success mem0 rem0 _ _ _ Hk H Hin).
Defined.

Lemma wants_then_haves_in_walk_order_witness :
  filter is_transport_call (trace_of (git_fetch_negotiate mem0 rem0)) =
    [ EvTransportLs 0; EvSendWants [1%nat; 3%nat] 0;
      EvSendHave 3%N 0; EvSendHave 1%N 0; EvSendHave 1%N 0;
      EvSendFlush 0; EvSendDone 0 ] /\
  haves_of (trace_of (git_fetch_negotiate mem0 rem_sends_fail))
    = haves_of (trace_of (git_fetch_negotiate mem0 rem0)).
Proof.
  assert (GIT_ERROR < GIT_SUCCESS) as Hk by (vm_compute; reflexivity).
  assert (git_fetch_negotiate mem0 rem0 =
          (trace_of (git_fetch_negotiate mem0 rem0), Ret GIT_SUCCESS,
           remote_of (git_fetch_negotiate mem0 rem0))) as H1
    by (vm_compute; reflexivity).
  assert (git_fetch_negotiate mem0 rem_sends_fail =
          (trace_of (git_fetch_negotiate mem0 rem_sends_fail), Ret GIT_SUCCESS,
           remote_of (git_fetch_negotiate mem0 rem_sends_fail))) as H2
    by (vm_compute; reflexivity).
  assert (len (refs (remote_of (git_fetch_negotiate mem0 rem0))) <> 0%nat)
    as L1 by (vm_compute; discriminate).
  assert (len (refs (remote_of (git_fetch_negotiate mem0 rem_sends_fail)))
            <> 0%nat) as L2 by (vm_compute; discriminate).
  destruct (wants_then_haves_in_walk_order mem0 mem0 rem0 rem_sends_fail
              _ _ _ _ Hk eq_refl H1 L1 H2 L2) as (T & _ & _ & D).
  split; [exact T|exact D].
Defined.

Lemma filter_wants_failure_keeps_refs_witness :
  len (refs (remote_of (filter_wants mem_full rem0))) = 1%nat /\
  heads (refs (remote_of (filter_wants mem_full rem0))) = [0%nat] /\
  (trace_of (filter_wants mem_full rem0) = [] \/
   exists tr', trace_of (filter_wants mem_full rem0) = tr' ++ [EvVectorFree]).
Proof.
  assert (filter_wants mem_full rem0 =
          (trace_of (filter_wants mem_full rem0), -4,
           remote_of (filter_wants mem_full rem0))) as H
    by (vm_compute; reflexivity).
  assert (-4 <> GIT_SUCCESS) as Hne by (vm_compute; discriminate).
  exact (filter_wants_failure_keeps_refs mem_full rem0 _ _ _ H Hne).
Defined.

End Runs.

(** * Further properties of the code *)

(** ** The comparison *)

(** X1. [whn_cmp] is a consistent comparison on heads whose classifications
    are far from the limits of [int]: it is the difference of the types,
    negative exactly when the first head has the greater type, it changes
    sign when its arguments are swapped, and it is transitive. *)
Theorem whn_cmp_consistent (a b c : git_remote_head) :
  small_type a -> small_type b -> small_type c ->
  whn_cmp a b = h_type b - h_type a /\
  (whn_cmp a b < 0 <-> h_type b < h_type a) /\
  whn_cmp b a = - whn_cmp a b /\
  (whn_cmp a b <= 0 -> whn_cmp b c <= 0 -> whn_cmp a c <= 0).
Proof.
  unfold small_type, whn_cmp. change (2 ^ 30) with 1073741824.
  intros Ha Hb Hc.
  rewrite !wrap_int_small by (change (2 ^ 31) with 2147483648; lia).
  repeat split; lia.
Qed.

(** ** The want filter *)

Section FilterExtras.

Context {K : git_consts}.

Lemma want_ptrs_wanted (spec : git_refspec) (repo : git_repository)
    (hs : list git_remote_head) (i : nat) (head : git_remote_head) :
  nth_error hs i = Some head ->
  (In i (want_ptrs spec repo 0 hs) <-> wanted spec repo head = true).
Proof.
  intros Hi. rewrite want_ptrs_In. split.
  - intros (k & head' & -> & Hk & W). simpl in Hi. congruence.
  - intros W. exists i, head. auto.
Qed.

(** X2. After a successful [filter_wants] every advertised head is where it
    was, with its name and remote identifier. A head outside the want list
    is untouched. A head in the want list has type [GIT_WHN_WANT]; when a
    local reference exists under the transformed name, [local] is set and
    [loid] is that reference's target, which differs from the remote
    identifier; when none exists, [local] and [loid] are left as they were. *)
Theorem filter_wants_classifies (mem : allocator) (remote remote' : git_remote)
    (tr : trace) (spec : git_refspec) :
  fetch remote = Some spec ->
  filter_wants mem remote = (tr, GIT_SUCCESS, remote') ->
  forall i head,
    nth_error (t_heads (transport remote)) i = Some head ->
    exists head',
      nth_error (t_heads (transport remote')) i = Some head' /\
      h_name head' = h_name head /\ h_oid head' = h_oid head /\
      (~ In i (heads (refs remote')) -> head' = head) /\
      (In i (heads (refs remote')) ->
       h_type head' = GIT_WHN_WANT /\
       match repo_lookup (repo remote) (local_name spec (h_name head)) with
       | RefFound r =>
           h_local head' = true /\ h_loid head' = ref_oid r /\
           ref_oid r <> h_oid head
       | RefFailed _ =>
           h_local head' = h_local head /\ h_loid head' = h_loid head
       end).
Proof.
  intros Hspec H i head Hi.
  destruct (filter_wants_success mem remote remote' tr spec Hspec H)
    as (_ & _ & _ & _ & ->).
  cbn [refs set_refs heads transport set_transport t_heads set_heads].
  exists (classify spec (repo remote) head).
  rewrite nth_error_map, Hi, (want_ptrs_wanted _ _ _ _ _ Hi).
  cbn [option_map].
  unfold classify, wanted, git_reference_lookup, git_reference_oid.
  destruct (repo_lookup (repo remote) (local_name spec (h_name head)))
    as [r|e]; cbn [snd].
  all: destruct (git_refspec_src_match spec (h_name head) =? GIT_ENOMATCH);
    cbn [negb andb].
  all: try (destruct (git_oid_cmp (h_oid head) (ref_oid r) =? 0) eqn:C;
            cbn [negb]).
  all: try (apply Z.eqb_neq in C; rewrite git_oid_cmp_eq in C).
  all: cbn; repeat split; auto.
  all: try (intros; congruence).
  all: intros N; exfalso; apply N; reflexivity.
Qed.

Lemma same_ref_refl (head : git_remote_head) : same_ref head head.
Proof. unfold same_ref. auto. Qed.

Lemma same_ref_all (hs : list git_remote_head) : Forall2 same_ref hs hs.
Proof. induction hs; constructor; auto using same_ref_refl. Qed.

Lemma filter_loop_frame (spec : git_refspec) (repo : git_repository)
    (mem : allocator) (hs : list git_remote_head) :
  forall i v tr ex hs',
    filter_loop spec repo mem i hs v = (tr, ex, hs') ->
    Forall2 same_ref hs hs'.
Proof.
  induction hs as [|head rest IH]; intros i v tr ex hs' H; simpl in H.
  - inversion H. constructor.
  - run_inv H.
    all: try match goal with
         | H : filter_loop _ _ _ _ _ _ = _ |- _ => apply IH in H
         end.
    all: constructor; auto using same_ref_refl, same_ref_all.
    all: unfold same_ref; cbn; auto.
Qed.

(** X3. However [filter_wants] ends, the advertisement keeps its length
    and every head keeps its name and its remote identifier; a [local] flag
    that was set is never cleared. The transport's operations, the
    repository and the refspec are not touched. *)
Theorem filter_wants_keeps_advertisement (mem : allocator)
    (remote remote' : git_remote) (tr : trace) (e : Z) :
  filter_wants mem remote = (tr, e, remote') ->
  Forall2 same_ref (t_heads (transport remote)) (t_heads (transport remote'))
  /\ List.length (t_heads (transport remote'))
     = List.length (t_heads (transport remote)) /\
  t_ls (transport remote') = t_ls (transport remote) /\
  t_send_wants (transport remote') = t_send_wants (transport remote) /\
  t_send_have (transport remote') = t_send_have (transport remote) /\
  t_send_flush (transport remote') = t_send_flush (transport remote) /\
  t_send_done (transport remote') = t_send_done (transport remote) /\
  repo remote' = repo remote /\ fetch remote' = fetch remote.
Proof.
  intros H.
  assert (Forall2 same_ref (t_heads (transport remote))
            (t_heads (transport remote')) /\
          t_ls (transport remote') = t_ls (transport remote) /\
          t_send_wants (transport remote') = t_send_wants (transport remote) /\
          t_send_have (transport remote') = t_send_have (transport remote) /\
          t_send_flush (transport remote') = t_send_flush (transport remote) /\
          t_send_done (transport remote') = t_send_done (transport remote) /\
          repo remote' = repo remote /\ fetch remote' = fetch remote) as G.
  { unfold filter_wants in H.
    destruct (vector_init_code mem <? GIT_SUCCESS).
    { injection H as <- <- <-. repeat split. apply same_ref_all. }
    destruct (t_ls (transport remote) <? GIT_SUCCESS).
    { injection H as <- <- <-. repeat split. apply same_ref_all. }
    destruct (git_remote_fetchspec remote) as [spec|].
    2:{ injection H as <- <- <-. repeat split. apply same_ref_all. }
    destruct
      (filter_loop spec (repo remote) mem 0 (t_heads (transport remote)) [])
      as [[tr' ex] hs'] eqn:L.
    apply filter_loop_frame in L.
    destruct ex; injection H as <- <- <-; cbn; repeat split; exact L. }
  destruct G as (F & G). split; [exact F|]. split; [|exact G].
  symmetry. eapply Forall2_length, F.
Qed.

Lemma last_call_single (P : event -> Prop) (ev : event) :
  P ev -> exists tr' ev', [ev] = tr' ++ [ev'] /\ P ev'.
Proof. intros H. now exists [], ev. Qed.

Lemma last_call_app (P : event -> Prop) (l1 l2 : trace) :
  (exists tr' ev, l2 = tr' ++ [ev] /\ P ev) ->
  exists tr' ev, l1 ++ l2 = tr' ++ [ev] /\ P ev.
Proof.
  intros (tr' & ev & -> & H). exists (l1 ++ tr'), ev.
  now rewrite app_assoc.
Qed.

Lemma last_call_cons (P : event -> Prop) (a : event) (l2 : trace) :
  (exists tr' ev, l2 = tr' ++ [ev] /\ P ev) ->
  exists tr' ev, a :: l2 = tr' ++ [ev] /\ P ev.
Proof. apply (last_call_app P [a]). Qed.

Ltac last_call :=
  repeat first
    [ assumption
    | apply last_call_single; repeat split; reflexivity
    | apply last_call_app
    | apply last_call_cons ].

Lemma filter_loop_cleanup_last (spec : git_refspec) (repo : git_repository)
    (mem : allocator) (hs : list git_remote_head) :
  forall i v tr e hs',
    filter_loop spec repo mem i hs v = (tr, Cleanup e, hs') ->
    exists tr' ev, tr = tr' ++ [ev] /\
                   (is_head_call ev = true /\ event_code ev = Some e).
Proof.
  induction hs as [|head rest IH]; intros i v tr e hs' H; simpl in H.
  - inversion H.
  - unfold git__rethrow in H. run_inv H.
    all: try match goal with
         | H : filter_loop _ _ _ _ _ _ = _ |- _ => apply IH in H
         end.
    all: last_call.
Qed.

(** X4. [filter_wants] fails fast. When the vector was set up and a fetch
    refspec is configured, a return value other than [GIT_SUCCESS] is the
    code of the last call made (the listing, a match, a transform, a lookup
    or an insertion); it is below [GIT_SUCCESS], and nothing follows that
    call but the release of the vector. *)
Theorem filter_wants_fails_fast (mem : allocator)
    (remote remote' : git_remote) (tr : trace) (e : Z) :
  filter_wants mem remote = (tr, e, remote') ->
  (vector_init_code mem <? GIT_SUCCESS) = false ->
  fetch remote <> None ->
  e <> GIT_SUCCESS ->
  e < GIT_SUCCESS /\
  exists tr' ev, tr = tr' ++ [ev; EvVectorFree] /\ event_code ev = Some e.
Proof.
  unfold filter_wants, git_remote_fetchspec, git__rethrow.
  intros H E0 Hspec Hne. rewrite E0 in H.
  destruct (t_ls (transport remote) <? GIT_SUCCESS) eqn:E1.
  { injection H as <- <- <-. split; [lia|]. exists [], (EvTransportLs
      (t_ls (transport remote))). auto. }
  destruct (fetch remote) as [spec|]; [|congruence].
  destruct
    (filter_loop spec (repo remote) mem 0 (t_heads (transport remote)) [])
    as [[tr' ex] hs'] eqn:L.
  destruct ex as [e'|v]; injection H as <- <- <-; [|congruence].
  split; [eapply filter_loop_cleanup, L|].
  apply filter_loop_cleanup_last in L. destruct L as (t' & ev & -> & _ & He).
  exists (EvTransportLs (t_ls (transport remote)) :: t'), ev.
  split; [|exact He]. cbn. now rewrite <- app_assoc.
Qed.

Lemma sorted_lt_NoDup (l : list nat) : StronglySorted lt l -> NoDup l.
Proof.
  induction 1 as [|x l Hs IH Hall]; constructor; [|exact IH].
  intros Hin. rewrite Forall_forall in Hall. specialize (Hall x Hin). lia.
Qed.

Lemma want_ptrs_length (spec : git_refspec) (repo : git_repository)
    (hs : list git_remote_head) :
  forall i, (List.length (want_ptrs spec repo i hs) <= List.length hs)%nat.
Proof.
  induction hs as [|h rest IH]; intros i; cbn; [lia|].
  destruct (wanted spec repo h); cbn; specialize (IH (S i)); lia.
Qed.

(** X5. The want list of a successful [filter_wants] is well formed: its
    stored length is the number of its entries, no head is listed twice,
    every entry points into the advertisement, and it is no longer than the
    advertisement. *)
Theorem wantlist_well_formed (mem : allocator) (remote remote' : git_remote)
    (tr : trace) (spec : git_refspec) :
  fetch remote = Some spec ->
  filter_wants mem remote = (tr, GIT_SUCCESS, remote') ->
  len (refs remote') = List.length (heads (refs remote')) /\
  NoDup (heads (refs remote')) /\
  (forall p, In p (heads (refs remote')) ->
             (p < List.length (t_heads (transport remote')))%nat) /\
  (len (refs remote') <= List.length (t_heads (transport remote)))%nat.
Proof.
  intros Hspec H.
  destruct (filter_wants_success mem remote remote' tr spec Hspec H)
    as (_ & _ & _ & _ & ->).
  cbn [refs set_refs heads len transport set_transport t_heads set_heads].
  repeat split.
  - apply sorted_lt_NoDup, want_ptrs_sorted.
  - intros p Hp. apply want_ptrs_In in Hp.
    destruct Hp as (k & head & -> & Hk & _). rewrite length_map. cbn.
    apply nth_error_Some. congruence.
  - apply want_ptrs_length.
Qed.

Lemma filter_loop_again (spec : git_refspec) (repo : git_repository)
    (mem : allocator) (hs : list git_remote_head) :
  forall i v tr v' hs',
    filter_loop spec repo mem i hs v = (tr, Completed v', hs') ->
    filter_loop spec repo mem i hs' v = (tr, Completed v', hs').
Proof.
  induction hs as [|head rest IH]; intros i v tr v' hs' H; simpl in H.
  - inversion H. reflexivity.
  - run_inv H.
    all: match goal with
         | H : filter_loop _ _ _ _ _ _ = _ |- _ => apply IH in H
         end.
    all: cbn [filter_loop set_type set_local h_name h_oid].
    all: repeat (progress (rew_tests; cbn [negb andb])).
    all: reflexivity.
Qed.

(** X6. [filter_wants] is idempotent: a second call on the remote a
    successful call has left behind makes the same calls, succeeds, and
    leaves the remote, heads and want list, exactly as it found it. *)
Theorem filter_wants_idempotent (mem : allocator)
    (remote remote' : git_remote) (tr : trace) (spec : git_refspec) :
  fetch remote = Some spec ->
  filter_wants mem remote = (tr, GIT_SUCCESS, remote') ->
  filter_wants mem remote' = (tr, GIT_SUCCESS, remote').
Proof.
  intros Hspec H. unfold filter_wants, git_remote_fetchspec in H.
  rewrite Hspec in H. unfold git__rethrow in H.
  destruct (vector_init_code mem <? GIT_SUCCESS) eqn:E0.
  { inversion H. lia. }
  destruct (t_ls (transport remote) <? GIT_SUCCESS) eqn:E1.
  { inversion H. lia. }
  destruct
    (filter_loop spec (repo remote) mem 0 (t_heads (transport remote)) [])
    as [[tr' ex] hs'] eqn:L.
  destruct ex as [e|v].
  { apply filter_loop_cleanup in L. inversion H. lia. }
  pose proof (filter_loop_again _ _ _ _ _ _ _ _ _ L) as L2.
  apply filter_loop_completed in L. destruct L as [Hv ->]. cbn [app] in Hv.
  subst v.
  assert (git_vector_sort
            (ptr_cmp (map (classify spec (repo remote))
                        (t_heads (transport remote))))
            (want_ptrs spec (repo remote) 0 (t_heads (transport remote)))
          = want_ptrs spec (repo remote) 0 (t_heads (transport remote)))
    as S.
  { apply git_vector_sort_ties. intros a b Ha Hb. unfold ptr_cmp.
    apply whn_cmp_same_type. now rewrite !deref_classified. }
  rewrite S in H. injection H as <- <-.
  unfold filter_wants, git_remote_fetchspec.
  cbn [transport repo fetch refs set_refs set_transport set_heads t_ls
       t_heads].
  rewrite E0, E1, Hspec, L2, S. reflexivity.
Qed.

Lemma lookups_of_app (tr1 tr2 : trace) :
  lookups_of (tr1 ++ tr2) = lookups_of tr1 ++ lookups_of tr2.
Proof.
  induction tr1 as [|e tr1 IH]; [reflexivity|].
  destruct e; cbn; now rewrite ?IH.
Qed.

Lemma filter_loop_lookups (spec : git_refspec) (repo : git_repository)
    (mem : allocator) (hs : list git_remote_head) :
  forall i v tr v' hs',
    filter_loop spec repo mem i hs v = (tr, Completed v', hs') ->
    lookups_of tr = map (fun head => local_name spec (h_name head))
                      (matching spec hs).
Proof.
  induction hs as [|head rest IH]; intros i v tr v' hs' H; simpl in H.
  - inversion H. reflexivity.
  - run_inv H.
    all: match goal with
         | H : filter_loop _ _ _ _ _ _ = _ |- _ => apply IH in H
         end.
    all: unfold matching in *; cbn [filter]; rew_tests; cbn [negb map].
    all: rewrite ?lookups_of_app; cbn [lookups_of app].
    all: match goal with H : lookups_of _ = _ |- _ => rewrite H end.
    all: try reflexivity.
    all: f_equal; unfold local_name; rew_tests; reflexivity.
Qed.

(** X15. A successful [filter_wants] consults the reference store once for
    each advertised head whose name is not a mismatch for the source
    pattern, in advertisement order, under the transformed name; heads that
    do not match cause no lookup. *)
Theorem filter_wants_lookups (mem : allocator) (remote remote' : git_remote)
    (tr : trace) (spec : git_refspec) :
  fetch remote = Some spec ->
  filter_wants mem remote = (tr, GIT_SUCCESS, remote') ->
  lookups_of tr =
    map (fun head => local_name spec (h_name head))
      (matching spec (t_heads (transport remote))).
Proof.
  intros Hspec H. unfold filter_wants, git_remote_fetchspec in H.
  rewrite Hspec in H. unfold git__rethrow in H.
  destruct (vector_init_code mem <? GIT_SUCCESS) eqn:E0.
  { inversion H. lia. }
  destruct (t_ls (transport remote) <? GIT_SUCCESS) eqn:E1.
  { inversion H. lia. }
  destruct
    (filter_loop spec (repo remote) mem 0 (t_heads (transport remote)) [])
    as [[tr' ex] hs'] eqn:L.
  destruct ex as [e|v].
  { apply filter_loop_cleanup in L. inversion H. lia. }
  apply filter_loop_lookups in L. injection H as <- _. cbn. exact L.
Qed.

End FilterExtras.

(** ** The negotiation *)

Section SuffixOf.

Variables (A : Type) (s : list A).

Lemma suffix_refl : exists t, s = t ++ s.
Proof. now exists []. Qed.

Lemma suffix_app (l1 l2 : list A) :
  (exists t, l2 = t ++ s) -> exists t, l1 ++ l2 = t ++ s.
Proof. intros [t ->]. exists (l1 ++ t). now rewrite app_assoc. Qed.

Lemma suffix_cons (a : A) (l2 : list A) :
  (exists t, l2 = t ++ s) -> exists t, a :: l2 = t ++ s.
Proof. intros [t ->]. now exists (a :: t). Qed.

End SuffixOf.

Ltac suffix_of :=
  repeat first [apply suffix_refl | apply suffix_app | apply suffix_cons].



(** What the calls of [filter_wants] are not. *)
Lemma local_call_more (tr : trace) :
  Forall (fun e => is_local_call e = true) tr ->
  filter is_strarray_free tr = [] /\ filter is_revwalk_next tr = [] /\
  filter is_walker_call tr = [] /\ (forall c, ~ In (EvListall c) tr).
Proof.
  induction 1 as [|e tr He _ IH]; cbn.
  - repeat split; auto.
  - destruct IH as (I1 & I2 & I3 & I4).
    destruct e; try discriminate He; cbn; repeat split; auto;
      intros c [Hc|Hc]; try discriminate Hc; now apply (I4 c).
Qed.

Section NegotiateExtras.

Context {K : git_consts}.

Lemma filter_wants_trace_more (mem : allocator) (remote remote' : git_remote)
    (tr : trace) (e : Z) :
  filter_wants mem remote = (tr, e, remote') ->
  filter is_strarray_free tr = [] /\ filter is_revwalk_next tr = [] /\
  filter is_walker_call tr = [] /\ (forall c, ~ In (EvListall c) tr).
Proof.
  intros H.
  destruct (filter_wants_calls mem _ _ _ _ H) as [(-> & _)|(_ & tr' & -> & Hl)].
  - cbn. repeat split; auto.
  - destruct (local_call_more tr' Hl) as (I1 & I2 & I3 & I4).
    cbn. repeat split; auto.
    intros c [Hc|Hc]; [discriminate|]. now apply (I4 c).
Qed.

Lemma seed_call_more (tr : trace) :
  Forall (fun e => is_seed_call e = true) tr ->
  filter is_send_call tr = [] /\ filter is_strarray_free tr = [] /\
  filter is_revwalk_next tr = [] /\ (forall c, ~ In (EvListall c) tr).
Proof.
  induction 1 as [|e tr He _ IH]; cbn.
  - repeat split; auto.
  - destruct IH as (I1 & I2 & I3 & I4).
    destruct e; try discriminate He; cbn; repeat split; auto;
      intros c [Hc|Hc]; try discriminate Hc; now apply (I4 c).
Qed.

Lemma seed_loop_trace_more (repo : git_repository) (names : list string)
    (walk : option git_revwalk) (tr : trace) (ex : seed_exit) :
  seed_loop repo names walk = (tr, ex) ->
  filter is_send_call tr = [] /\ filter is_strarray_free tr = [] /\
  filter is_revwalk_next tr = [] /\ (forall c, ~ In (EvListall c) tr).
Proof. intros H. eapply seed_call_more, seed_loop_calls, H. Qed.

(** The have loop: one [next] more than haves, the last [next] last, and
    no call of another kind. *)
Lemma have_loop_more (t : git_transport) (pending : list git_oid) (last : Z) :
  forall tr e,
    have_loop t pending last = (tr, e) ->
    filter is_send_call tr =
      map (fun o => EvSendHave o (t_send_have t o)) pending /\
    filter is_strarray_free tr = [] /\
    List.length (filter is_revwalk_next tr) = S (List.length pending) /\
    (exists tr', tr = tr' ++ [EvRevwalkNext last]) /\
    Forall (fun ev => is_seed_call ev = false) tr /\
    (forall c, ~ In (EvListall c) tr).
Proof.
  induction pending as [|o rest IH]; intros tr e H; simpl in H.
  - inversion H; subst. cbn. repeat split; auto.
    + now exists [].
    + intros c [Hc|[]]. discriminate.
  - destruct (have_loop t rest last) as [tr' e'] eqn:L. inversion H; subst.
    destruct (IH _ _ eq_refl) as (I1 & I2 & I3 & (t' & ->) & I5 & I6).
    cbn. rewrite I1, I2, I3. repeat split; auto.
    + now exists (EvRevwalkNext GIT_SUCCESS :: EvSendHave o (t_send_have t o)
                    :: t').
    + intros c [Hc|[Hc|Hc]]; try discriminate. now apply (I6 c).
Qed.

Lemma send_haves_no_wants (t : git_transport) (l : list git_oid) :
  filter is_send_wants (map (fun o => EvSendHave o (t_send_have t o)) l) = [].
Proof. induction l; cbn; auto. Qed.

End NegotiateExtras.

(** As [negotiate_paths], with more of what is known of the pieces. *)
Ltac negotiate_paths_more H :=
  unfold git_fetch_negotiate, git__rethrow in H;
  match type of H with
  | context [filter_wants ?m ?r] =>
      let F := fresh "F" in
      destruct (filter_wants m r) as [[?tr0 ?e0] ?r1] eqn:F;
      pose proof (filter_wants_trace_facts _ _ _ _ _ F);
      pose proof (filter_wants_trace_more _ _ _ _ _ F);
      pose proof (filter_wants_frame _ _ _ _ _ F)
  end;
  run_inv H;
  repeat match goal with
  | S : seed_loop _ _ _ = _ |- _ =>
      pose proof (seed_loop_trace_facts _ _ _ _ _ S);
      pose proof (seed_loop_trace_more _ _ _ _ _ S); revert S
  | L : have_loop _ _ _ = _ |- _ =>
      pose proof (have_loop_spec _ _ _ _ _ L);
      pose proof (have_loop_more _ _ _ _ _ L); revert L
  end; intros;
  repeat match goal with H : _ /\ _ |- _ => destruct H end.

(** Push an observation through the pieces of a trace. *)
Ltac through_trace :=
  repeat first
    [ rewrite filter_app
    | rewrite haves_of_app
    | rewrite pushed_of_app
    | rewrite length_app
    | match goal with
      | H : filter ?f ?t = _ |- context [filter ?f ?t] => rewrite H
      | H : haves_of ?t = _ |- context [haves_of ?t] => rewrite H
      | H : pushed_of ?t = _ |- context [pushed_of ?t] => rewrite H
      | H : List.length (filter ?f ?t) = _
        |- context [List.length (filter ?f ?t)] => rewrite H
      end
    | progress cbn [filter haves_of have_oid pushed_of app List.length
                    is_send_call is_send_wants is_strarray_free
                    is_revwalk_next is_walker_call is_revwalk_free
                    is_transport_call] ].

Section NegotiateProperties.

Context {K : git_consts}.

(** X7. On every path of [git_fetch_negotiate], failing ones included, the
    want list goes out first and once: either no send is made at all, or the
    first send is [send_wants] with the whole want list and no later send is
    a [send_wants]; sends happen only after a want filter that did not fail
    left a want list that is not empty. *)
Theorem wants_sent_first_and_once (mem : allocator)
    (remote remote' : git_remote) (tr : trace) (out : outcome) :
  git_fetch_negotiate mem remote = (tr, out, remote') ->
  filter is_send_call tr = [] \/
  exists rest,
    filter is_send_call tr =
      EvSendWants (heads (refs remote'))
        (t_send_wants (transport remote') (heads (refs remote'))) :: rest /\
    filter is_send_wants rest = [] /\
    len (refs remote') <> 0%nat /\
    (result_of (filter_wants mem remote) <? GIT_SUCCESS) = false.
Proof.
  intros H. negotiate_paths_more H.
  1-2: left; assumption.
  all: right; eexists; split; [through_trace; reflexivity|].
  all: rewrite ?filter_app, ?send_haves_no_wants.
  all: repeat split; auto.
  all: match goal with
       | H : (_ =? _)%nat = false |- _ => apply Nat.eqb_neq in H; exact H
       end.
Qed.

(** X8. When the walk breaks down ([git_revwalk_next] reports a code that
    is neither [GIT_SUCCESS] nor [GIT_EREVWALKOVER]), the loop ends, flush
    and done are sent all the same, the walker is released, and the code of
    the walk is what [git_fetch_negotiate] returns. *)
Theorem walk_failure_returned (mem : allocator) (remote remote' : git_remote)
    (tr : trace) (out : outcome) (e : Z) :
  git_fetch_negotiate mem remote = (tr, out, remote') ->
  In (EvRevwalkNext e) tr ->
  e <> GIT_SUCCESS -> e <> GIT_EREVWALKOVER ->
  out = Ret e /\
  exists tr',
    tr = tr' ++ [EvRevwalkNext e;
                 EvSendFlush (t_send_flush (transport remote'));
                 EvSendDone (t_send_done (transport remote'));
                 EvRevwalkFree].
Proof.
  intros H Hin Hs Ho. negotiate_paths_more H.
  all: split_in.
  match goal with
  | H : In (EvRevwalkNext _) ?t,
    N : forall c, In (EvRevwalkNext c) ?t -> _ |- _ =>
      destruct (N _ H) as [E|E]; [congruence|]
  end.
  subst. split.
  - apply Z.eqb_neq in Ho. now rewrite Ho.
  - match goal with
    | H : exists t', _ = t' ++ [EvRevwalkNext _] |- _ => destruct H as [? ->]
    end.
    rewrite <- !app_assoc. cbn [app]. suffix_of.
Qed.

(** X9. In every run that reaches the have loop, whatever ends the walk,
    the tips pushed are the targets of the enumerated local references, the
    haves sent are the identifiers the walk from those tips yields, in
    order, and [git_revwalk_next] has been called once more than haves were
    sent. *)
Theorem haves_follow_the_walk (mem : allocator) (remote remote' : git_remote)
    (tr : trace) (out : outcome) (e : Z) :
  git_fetch_negotiate mem remote = (tr, out, remote') ->
  In (EvRevwalkNext e) tr ->
  pushed_of tr = local_tips (repo remote) /\
  haves_of tr = fst (repo_revwalk (repo remote) (local_tips (repo remote))) /\
  List.length (filter is_revwalk_next tr) = S (List.length (haves_of tr)).
Proof.
  intros H Hin. negotiate_paths_more H.
  all: split_in.
  match goal with
  | R : repo ?r' = repo remote |- _ => rewrite <- R
  end.
  destruct o0 as [w0|];
    [|apply seed_loop_none in Heqp1; discriminate Heqp1].
  apply seed_loop_seeded in Heqp1. destruct Heqp1 as [Hg Hp].
  apply git_revwalk_new_some in Heqp0. rewrite Heqp0 in Hg. cbn [app] in Hg.
  apply git_reference_listall_some in Heqp. subst l.
  fold (local_tips (repo remote')) in Hg, Hp.
  rewrite <- Hg, Heqp2. cbn [fst].
  through_trace. rewrite ?app_nil_r. subst. repeat split; auto.
Qed.





(** X14. When the enumeration of the local references reports a code below
    [GIT_ERROR], [git_fetch_negotiate] returns it right away: the want list
    has been sent by then, and no walker is created or released. *)
Theorem failed_listing_after_wants (mem : allocator)
    (remote remote' : git_remote) (tr : trace) (out : outcome) (e : Z) :
  git_fetch_negotiate mem remote = (tr, out, remote') ->
  In (EvListall e) tr -> e < GIT_ERROR ->
  out = Ret e /\
  (exists tr',
     tr = tr' ++ [EvSendWants (heads (refs remote'))
                    (t_send_wants (transport remote') (heads (refs remote')));
                  EvListall e]) /\
  filter is_walker_call tr = [].
Proof.
  intros H Hin He. negotiate_paths_more H.
  all: repeat match goal with
       | H : In _ (_ ++ _) |- _ => apply in_app_or in H
       | H : In _ (_ :: _) |- _ => destruct H
       | H : In _ [] |- _ => destruct H
       | H : _ \/ _ |- _ => destruct H
       | H : In (EvListall ?c) ?t, N : forall c, ~ In (EvListall c) ?t
         |- _ => destruct (N c H)
       | H : EvListall _ = EvListall _ |- _ => injection H as ->
       end.
  all: try discriminate; try lia.
  split; [reflexivity|]. split.
  - rewrite <- !app_assoc. cbn [app]. suffix_of.
  - through_trace. reflexivity.
Qed.

Lemma in_strarray_free (tr : trace) :
  In EvStrarrayFree tr <-> filter is_strarray_free tr <> [].
Proof.
  induction tr as [|x tr IH]; cbn; [tauto|].
  destruct x; cbn; rewrite <- ?IH;
    try (split; [intros [Hx|Hx]; [discriminate|exact Hx]|tauto]).
  split; [discriminate|auto].
Qed.

Lemma in_revwalk_next (tr : trace) :
  (exists e, In (EvRevwalkNext e) tr) <-> filter is_revwalk_next tr <> [].
Proof.
  induction tr as [|x tr IH]; cbn.
  - split; [intros [e []]|congruence].
  - destruct x; cbn; rewrite <- ?IH;
      try (split; [intros [e [Hx|Hx]]; [discriminate|eauto]
                  |intros [e Hx]; eauto]).
    split; [discriminate|eauto].
Qed.

(** X13. In a run that returns, the array of reference names is freed at
    most once, and exactly when the have loop is reached: a return from the
    seeding loop, or before it, leaves [git_strarray_free] uncalled. *)
Theorem names_freed_with_the_walk (mem : allocator)
    (remote remote' : git_remote) (tr : trace) (c : Z) :
  git_fetch_negotiate mem remote = (tr, Ret c, remote') ->
  (In EvStrarrayFree tr <-> exists e, In (EvRevwalkNext e) tr) /\
  (List.length (filter is_strarray_free tr) <= 1)%nat.
Proof.
  intros H. rewrite in_strarray_free, in_revwalk_next.
  negotiate_paths_more H.
  all: through_trace; rewrite ?app_nil_r.
  all: split; [|cbn; lia].
  all: try tauto.
  split; [intros _|discriminate].
  intros E. apply (f_equal (@List.length event)) in E.
  revert E. through_trace. discriminate.
Qed.






End NegotiateProperties.

(** ** Runs of the further properties on the concrete inputs *)

Section ExtraRuns.

Import Example Example2.
Local Existing Instance libgit2.

Lemma whn_cmp_consistent_witness :
  whn_cmp (mk_head 2 false 1%N 0%N "a") (mk_head 0 false 2%N 0%N "b") = -2 /\
  whn_cmp (mk_head 0 false 2%N 0%N "b") (mk_head 2 false 1%N 0%N "a") = 2.
Proof.
  assert (small_type (mk_head 2 false 1%N 0%N "a")) as Ha
    by (vm_compute; split; [discriminate|reflexivity]).
  assert (small_type (mk_head 0 false 2%N 0%N "b")) as Hb
    by (vm_compute; split; [discriminate|reflexivity]).
  destruct (whn_cmp_consistent _ _ _ Ha Hb Ha) as (E & _ & S & _).
  split; [exact E|]. rewrite S, E. reflexivity.
Defined.

Lemma filter_wants_classifies_witness :
  exists head',
    nth_error (t_heads (transport (remote_of (filter_wants mem0 rem0)))) 1
      = Some head' /\
    h_type head' = GIT_WHN_WANT /\ h_local head' = true /\
    h_loid head' = 1%N /\ h_oid head' = 2%N.
Proof.
  assert (filter_wants mem0 rem0 =
          (trace_of (filter_wants mem0 rem0), GIT_SUCCESS,
           remote_of (filter_wants mem0 rem0))) as H
    by (vm_compute; reflexivity).
  destruct (filter_wants_classifies mem0 rem0 _ _ origin eq_refl H 1%nat
              (mk_head 0 false 2%N 0%N "refs/heads/main") eq_refl)
    as (head' & Hn & _ & Ho & _ & Hw).
  assert (In 1%nat (heads (refs (remote_of (filter_wants mem0 rem0)))))
    as Hin by (vm_compute; tauto).
  destruct (Hw Hin) as (Ht & Hl).
  change (h_local head' = true /\ h_loid head' = 1%N /\ 1%N <> 2%N) in Hl.
  exists head'. intuition.
Defined.

Lemma filter_wants_keeps_advertisement_witness :
  List.length (t_heads (transport (remote_of (filter_wants mem_full rem0))))
    = 5%nat /\
  Forall2 same_ref adv
    (t_heads (transport (remote_of (filter_wants mem_full rem0)))).
Proof.
  assert (filter_wants mem_full rem0 =
          (trace_of (filter_wants mem_full rem0), -4,
           remote_of (filter_wants mem_full rem0))) as H
    by (vm_compute; reflexivity).
  destruct (filter_wants_keeps_advertisement mem_full rem0 _ _ _ H)
    as (F & L & _).
  split; [exact L|exact F].
Defined.

Lemma filter_wants_fails_fast_witness :
  -32 < GIT_SUCCESS /\
  exists tr' ev,
    trace_of (filter_wants mem0 rem_narrow) = tr' ++ [ev; EvVectorFree] /\
    event_code ev = Some (-32).
Proof.
  assert (filter_wants mem0 rem_narrow =
          (trace_of (filter_wants mem0 rem_narrow), -32,
           remote_of (filter_wants mem0 rem_narrow))) as H
    by (vm_compute; reflexivity).
  assert (fetch rem_narrow <> None) as Hs by discriminate.
  assert (-32 <> GIT_SUCCESS) as Hne by (vm_compute; discriminate).
  exact (filter_wants_fails_fast mem0 rem_narrow _ _ _ H eq_refl Hs Hne).
Defined.

Lemma wantlist_well_formed_witness :
  len (refs (remote_of (filter_wants mem0 rem0))) = 2%nat /\
  NoDup (heads (refs (remote_of (filter_wants mem0 rem0)))).
Proof.
  assert (filter_wants mem0 rem0 =
          (trace_of (filter_wants mem0 rem0), GIT_SUCCESS,
           remote_of (filter_wants mem0 rem0))) as H
    by (vm_compute; reflexivity).
  destruct (wantlist_well_formed mem0 rem0 _ _ origin eq_refl H)
    as (L & N & _).
  split; [exact L|exact N].
Defined.

Lemma filter_wants_idempotent_witness :
  filter_wants mem0 (remote_of (filter_wants mem0 rem0)) =
  (trace_of (filter_wants mem0 rem0), GIT_SUCCESS,
   remote_of (filter_wants mem0 rem0)).
Proof.
  assert (filter_wants mem0 rem0 =
          (trace_of (filter_wants mem0 rem0), GIT_SUCCESS,
           remote_of (filter_wants mem0 rem0))) as H
    by (vm_compute; reflexivity).
  exact (filter_wants_idempotent mem0 rem0 _ _ origin eq_refl H).
Defined.

Lemma filter_wants_lookups_witness :
  lookups_of (trace_of (filter_wants mem0 rem0)) =
  [ "refs/remotes/origin/main"; "refs/remotes/origin/dev";
    "refs/remotes/origin/new" ]%string.
Proof.
  assert (filter_wants mem0 rem0 =
          (trace_of (filter_wants mem0 rem0), GIT_SUCCESS,
           remote_of (filter_wants mem0 rem0))) as H
    by (vm_compute; reflexivity).
  exact (filter_wants_lookups mem0 rem0 _ _ origin eq_refl H).
Defined.

Lemma wants_sent_first_and_once_witness :
  exists rest,
    filter is_send_call (trace_of (git_fetch_negotiate mem0 rem_walk_breaks))
      = EvSendWants [1%nat; 3%nat] 0 :: rest /\
    filter is_send_wants rest = [].
Proof.
  assert (git_fetch_negotiate mem0 rem_walk_breaks =
          (trace_of (git_fetch_negotiate mem0 rem_walk_breaks),
           result_of (git_fetch_negotiate mem0 rem_walk_breaks),
           remote_of (git_fetch_negotiate mem0 rem_walk_breaks))) as H
    by (vm_compute; reflexivity).
  destruct (wants_sent_first_and_once mem0 rem_walk_breaks _ _ _ H)
    as [N|(rest & E & W & _)].
  - vm_compute in N. discriminate N.
  - exists rest. split; [exact E|exact W].
Defined.

Lemma walk_failure_returned_witness :
  result_of (git_fetch_negotiate mem0 rem_walk_breaks) = Ret (-5) /\
  exists tr',
    trace_of (git_fetch_negotiate mem0 rem_walk_breaks) =
      tr' ++ [EvRevwalkNext (-5); EvSendFlush 0; EvSendDone 0; EvRevwalkFree].
Proof.
  assert (git_fetch_negotiate mem0 rem_walk_breaks =
          (trace_of (git_fetch_negotiate mem0 rem_walk_breaks),
           result_of (git_fetch_negotiate mem0 rem_walk_breaks),
           remote_of (git_fetch_negotiate mem0 rem_walk_breaks))) as H
    by (vm_compute; reflexivity).
  assert (In (EvRevwalkNext (-5))
             (trace_of (git_fetch_negotiate mem0 rem_walk_breaks))) as Hin
    by (vm_compute; tauto).
  assert (-5 <> GIT_SUCCESS) as Hs by (vm_compute; discriminate).
  assert (-5 <> GIT_EREVWALKOVER) as Ho by (vm_compute; discriminate).
  exact (walk_failure_returned mem0 rem_walk_breaks _ _ _ _ H Hin Hs Ho).
Defined.

Lemma haves_follow_the_walk_witness :
  pushed_of (trace_of (git_fetch_negotiate mem0 rem_walk_breaks))
    = [1%N; 1%N; 3%N] /\
  haves_of (trace_of (git_fetch_negotiate mem0 rem_walk_breaks)) = [3%N] /\
  List.length
    (filter is_revwalk_next
       (trace_of (git_fetch_negotiate mem0 rem_walk_breaks))) = 2%nat.
Proof.
  assert (git_fetch_negotiate mem0 rem_walk_breaks =
          (trace_of (git_fetch_negotiate mem0 rem_walk_breaks),
           result_of (git_fetch_negotiate mem0 rem_walk_breaks),
           remote_of (git_fetch_negotiate mem0 rem_walk_breaks))) as H
    by (vm_compute; reflexivity).
  assert (In (EvRevwalkNext (-5))
             (trace_of (git_fetch_negotiate mem0 rem_walk_breaks))) as Hin
    by (vm_compute; tauto).
  destruct (haves_follow_the_walk mem0 rem_walk_breaks _ _ _ _ H Hin)
    as (P & W & N).
  split; [exact P|]. split; [exact W|]. rewrite N, W. reflexivity.
Defined.





Lemma names_freed_with_the_walk_witness :
  In EvStrarrayFree (trace_of (git_fetch_negotiate mem0 rem0)) /\
  ~ In EvStrarrayFree (trace_of (git_fetch_negotiate mem0 rem_push_rejected)).
Proof.
  assert (git_fetch_negotiate mem0 rem0 =
          (trace_of (git_fetch_negotiate mem0 rem0), Ret 0,
           remote_of (git_fetch_negotiate mem0 rem0))) as H1
    by (vm_compute; reflexivity).
  assert (git_fetch_negotiate mem0 rem_push_rejected =
          (trace_of (git_fetch_negotiate mem0 rem_push_rejected), Ret (-3),
           remote_of (git_fetch_negotiate mem0 rem_push_rejected))) as H2
    by (vm_compute; reflexivity).
  destruct (names_freed_with_the_walk mem0 rem0 _ _ _ H1) as ((_ & B1) & _).
  destruct (names_freed_with_the_walk mem0 rem_push_rejected _ _ _ H2)
    as ((A2 & _) & _).
  split.
  - apply B1. exists (-20). vm_compute. tauto.
  - intros Hin. destruct (A2 Hin) as (e & He). vm_compute in He.
    intuition discriminate.
Defined.

Lemma failed_listing_after_wants_witness :
  result_of (git_fetch_negotiate mem0 rem_no_listing) = Ret (-5) /\
  filter is_walker_call (trace_of (git_fetch_negotiate mem0 rem_no_listing))
    = [].
Proof.
  assert (git_fetch_negotiate mem0 rem_no_listing =
          (trace_of (git_fetch_negotiate mem0 rem_no_listing),
           result_of (git_fetch_negotiate mem0 rem_no_listing),
           remote_of (git_fetch_negotiate mem0 rem_no_listing))) as H
    by (vm_compute; reflexivity).
  assert (In (EvListall (-5))
             (trace_of (git_fetch_negotiate mem0 rem_no_listing))) as Hin
    by (vm_compute; tauto).
  assert (-5 < GIT_ERROR) as He by (vm_compute; reflexivity).
  destruct (failed_listing_after_wants mem0 rem_no_listing _ _ _ _ H Hin He)
    as (R & _ & W).
  split; [exact R|exact W].
Defined.

End ExtraRuns.
